(** * The Kademlia load balancer of swarm: use counts, bin snapshots, peer events

    A shallow embedding of [network/kademlialoadbalancer.go].  The table of use
    counts ([resourceUseStats]) is a record of two finite maps and a
    reader-writer lock; every method of the Go file is a small program over
    the atomic actions it performs on that record (lock operations, map
    reads and writes, channel operations), so that the same definition can be
    run sequentially ([run]) and interleaved with other goroutines ([step]). *)

From Stdlib Require Import ZArith Strings.Byte Ascii String.
From stdpp Require Import gmap strings list fin_maps relations sorting.

Local Open Scope Z_scope.

(** ** Go's [int] (64 bits, two's complement, wrapping arithmetic) *)

Definition int_min : Z := - 2 ^ 63.
Definition int_max : Z := 2 ^ 63 - 1.

Definition wrap_int (z : Z) : Z := (z + 2 ^ 63) `mod` 2 ^ 64 - 2 ^ 63.

Definition int_add (a b : Z) : Z := wrap_int (a + b).

(** ** Peers and their keys *)

(** Modelled from the spec: the type [Peer] is declared outside this file; a
    peer handle exposes an address (bytes) and the key derived from it.  A
    [*Peer] is its pointer identity [ptr] (what [peer != newPeer] compares)
    and the overlay address returned by [Address()]. *)
Record Peer : Type := mkPeer { ptr : nat; Address : list byte }.

Definition hextable : string := "0123456789abcdef"%string.

Definition hex_char (n : N) : ascii :=
  default "0"%char (String.get (N.to_nat n) hextable).

(** [encoding/hex.Encode]: two digits per byte, high nibble first. *)
Fixpoint hex_Encode (src : list byte) : string :=
  match src with
  | [] => ""%string
  | v :: rest =>
      String (hex_char (N.shiftr (Byte.to_N v) 4))
        (String (hex_char (N.land (Byte.to_N v) 15)) (hex_Encode rest))
  end.

(** [hexutil.Encode]: the hex digits behind a [0x] prefix. *)
Definition hexutil_Encode (b : list byte) : string := ("0x" +:+ hex_Encode b)%string.

(** [func (d *Peer) Key() string] *)
Definition Key (d : Peer) : string := hexutil_Encode (Address d).

(** ** The use-count table *)

(** Channels are heap objects; [make(chan struct{})] hands out a fresh one. *)
Definition chan : Type := nat.

(** [sync.RWMutex]: one writer or any number of readers. *)
Record RWMutex : Type := mkRWMutex { writer : bool; readers : nat }.

Record resourceUseStats : Type := mkStats {
  resourceUses : gmap string Z;
  waiting : gmap string chan;
  lock : RWMutex;
  next_chan : chan   (* the next channel [make] will allocate *)
}.

(** [newResourceLoadBalancer] *)
Definition newResourceLoadBalancer : resourceUseStats :=
  {| resourceUses := ∅; waiting := ∅;
     lock := {| writer := false; readers := 0%nat |}; next_chan := 0%nat |}.

Definition set_lock (m : RWMutex) (lb : resourceUseStats) : resourceUseStats :=
  {| resourceUses := resourceUses lb; waiting := waiting lb;
     lock := m; next_chan := next_chan lb |}.

Definition set_uses (u : gmap string Z) (lb : resourceUseStats) : resourceUseStats :=
  {| resourceUses := u; waiting := waiting lb;
     lock := lock lb; next_chan := next_chan lb |}.

Definition set_waiting (w : gmap string chan) (lb : resourceUseStats) : resourceUseStats :=
  {| resourceUses := resourceUses lb; waiting := w;
     lock := lock lb; next_chan := next_chan lb |}.

(** ** Atomic actions of a goroutine on the table *)

Inductive action : Type -> Type :=
| ALock : action unit                                 (* lb.lock.Lock() *)
| AUnlock : action unit                               (* lb.lock.Unlock() *)
| ARLock : action unit                                (* lb.lock.RLock() *)
| ARUnlock : action unit                              (* lb.lock.RUnlock() *)
| AReadUses (key : string) : action (option Z)        (* v, ok := lb.resourceUses[key] *)
| AWriteUses (key : string) (v : Z) : action unit     (* lb.resourceUses[key] = v *)
| ADeleteUses (key : string) : action unit            (* delete(lb.resourceUses, key) *)
| AMakeChan : action chan                             (* make(chan struct{}) *)
| AReadWaiting (key : string) : action (option chan)  (* c, ok := lb.waiting[key] *)
| AWriteWaiting (key : string) (c : chan) : action unit
| ADeleteWaiting (key : string) : action unit
| ARecv (c : option chan) : action unit               (* <-c ; None is the nil channel *)
| ASend (c : chan) : action unit.                     (* c <- struct{}{} *)

Inductive step_result (B : Type) : Type :=
| Stepped (b : B) (lb : resourceUseStats)
| Blocks
| Faults.
Arguments Stepped {B} b lb.
Arguments Blocks {B}.
Arguments Faults {B}.

(** What one action does when a goroutine runs it on its own.  A lock that is
    taken blocks; unlocking a lock that is not held is a fatal error of the Go
    runtime; a channel of capacity 0 needs the other side, so alone it blocks. *)
Definition exec {B : Type} (e : action B) (lb : resourceUseStats) : step_result B :=
  match e in action B return step_result B with
  | ALock =>
      if writer (lock lb) then Blocks
      else match readers (lock lb) with
           | O => Stepped tt (set_lock {| writer := true; readers := 0%nat |} lb)
           | S _ => Blocks
           end
  | AUnlock =>
      if writer (lock lb)
      then Stepped tt (set_lock {| writer := false; readers := readers (lock lb) |} lb)
      else Faults
  | ARLock =>
      if writer (lock lb) then Blocks
      else Stepped tt (set_lock {| writer := false; readers := S (readers (lock lb)) |} lb)
  | ARUnlock =>
      match readers (lock lb) with
      | O => Faults
      | S n => Stepped tt (set_lock {| writer := writer (lock lb); readers := n |} lb)
      end
  | AReadUses key => Stepped (resourceUses lb !! key) lb
  | AWriteUses key v => Stepped tt (set_uses (<[key := v]> (resourceUses lb)) lb)
  | ADeleteUses key => Stepped tt (set_uses (delete key (resourceUses lb)) lb)
  | AMakeChan =>
      Stepped (next_chan lb)
        {| resourceUses := resourceUses lb; waiting := waiting lb;
           lock := lock lb; next_chan := S (next_chan lb) |}
  | AReadWaiting key => Stepped (waiting lb !! key) lb
  | AWriteWaiting key c => Stepped tt (set_waiting (<[key := c]> (waiting lb)) lb)
  | ADeleteWaiting key => Stepped tt (set_waiting (delete key (waiting lb)) lb)
  | ARecv _ => Blocks
  | ASend _ => Blocks
  end.

(** ** Programs *)

Inductive prog (A : Type) : Type :=
| Ret (a : A)
| Panic
| Vis {B : Type} (e : action B) (k : B -> prog A).
Arguments Ret {A} a.
Arguments Panic {A}.
Arguments Vis {A B} e k.

Fixpoint bind {A B : Type} (p : prog A) (f : A -> prog B) : prog B :=
  match p with
  | Ret a => f a
  | Panic => Panic
  | Vis e k => Vis e (fun b => bind (k b) f)
  end.

Definition act {B : Type} (e : action B) : prog B := Vis e Ret.

Notation "'let!' x ':=' p 'in' q" := (bind p (fun x => q))
  (at level 10, x name, p at level 100, q at level 200).
Notation "'do!' p 'in' q" := (bind p (fun _ => q))
  (at level 10, p at level 100, q at level 200).

(** How a call ends when no other goroutine moves. *)
Inductive outcome (A : Type) : Type :=
| Done (a : A) (lb : resourceUseStats)   (* returned *)
| Blocked (lb : resourceUseStats)        (* parked for ever at an action *)
| Panicked (lb : resourceUseStats).
Arguments Done {A} a lb.
Arguments Blocked {A} lb.
Arguments Panicked {A} lb.

Fixpoint run {A : Type} (p : prog A) (lb : resourceUseStats) : outcome A :=
  match p with
  | Ret a => Done a lb
  | Panic => Panicked lb
  | Vis e k =>
      match exec e lb with
      | Stepped b lb' => run (k b) lb'
      | Blocks => Blocked lb
      | Faults => Panicked lb
      end
  end.

Definition run_bind_cont {A B : Type} (f : A -> prog B) (o : outcome A) : outcome B :=
  match o with
  | Done a lb => run (f a) lb
  | Blocked lb => Blocked lb
  | Panicked lb => Panicked lb
  end.


(** ** Methods of [resourceUseStats] *)

(** [type Resource interface { Key() string }]: the nil interface value or a
    [*Peer], the only implementation in the package. *)
Definition Resource : Type := option Peer.

(** [key[:4]], as evaluated for the arguments of [log.Debug]: slicing a string
    shorter than four bytes panics. *)
Definition key_prefix_ok (key : string) : bool := (4 <=? String.length key)%nat.

(** [getKeyUses]: the count, 0 for an absent key. *)
Definition getKeyUses (key : string) : prog Z :=
  do! act ARLock in
  let! v := act (AReadUses key) in
  do! act ARUnlock in
  Ret (default 0 v).

(** [getUses]: [keyed.Key()] on the nil interface panics. *)
Definition getUses (keyed : Resource) : prog Z :=
  match keyed with
  | None => Panic
  | Some p => getKeyUses (Key p)
  end.

(** [addUse]; the deferred [Unlock] runs on every way out, also on a panic. *)
Definition addUse (resource : Resource) : prog Z :=
  do! act ALock in
  match resource with
  | None => do! act AUnlock in Panic
  | Some p =>
      if key_prefix_ok (Key p) then
        let key := Key p in
        let! v := act (AReadUses key) in
        do! act (AWriteUses key (int_add (default 0 v) 1)) in
        let! r := act (AReadUses key) in
        do! act AUnlock in
        Ret (default 0 r)
      else do! act AUnlock in Panic
  end.

(** [waitKey]: the lock taken on entry is released by the deferred [Unlock]
    only when the function returns, so it is held across the receive. *)
Definition waitKey (key : string) : prog unit :=
  do! act ALock in
  let! v := act (AReadUses key) in
  match v with
  | Some _ => act AUnlock
  | None =>
      let! c := act AMakeChan in
      do! act (AWriteWaiting key c) in
      let! c' := act (AReadWaiting key) in
      do! act (ARecv c') in
      do! act (ADeleteWaiting key) in
      act AUnlock
  end.

(** [initKey] *)
Definition initKey (key : string) (count : Z) : prog unit :=
  do! act ALock in
  do! act (AWriteUses key count) in
  let! w := act (AReadWaiting key) in
  match w with
  | Some kChan => do! act (ASend kChan) in act AUnlock
  | None => act AUnlock
  end.

(** [removedPeer] (a method of the balancer, working on the table's fields):
    the deferred call is [Lock], not [Unlock]. *)
Definition removedPeer (peer : Peer) : prog unit :=
  do! act ALock in
  do! act (ADeleteUses (Key peer)) in
  act ALock.

(** ** Goroutines running side by side *)

(** One goroutine takes a step of its own. *)
Definition thread_step (p : prog unit) (lb : resourceUseStats)
  : option (prog unit * resourceUseStats) :=
  match p with
  | Vis e k =>
      match exec e lb with
      | Stepped b lb' => Some (k b, lb')
      | _ => None
      end
  | _ => None
  end.

(** A goroutine parked at a receive on channel [c], and what it does next. *)
Definition at_recv (p : prog unit) : option (chan * prog unit) :=
  match p with
  | Vis e k =>
      match e in action B return (B -> prog unit) -> option (chan * prog unit) with
      | ARecv (Some c) => fun k => Some (c, k tt)
      | _ => fun _ => None
      end k
  | _ => None
  end.

(** A goroutine parked at a send on channel [c], and what it does next. *)
Definition at_send (p : prog unit) : option (chan * prog unit) :=
  match p with
  | Vis e k =>
      match e in action B return (B -> prog unit) -> option (chan * prog unit) with
      | ASend c => fun k => Some (c, k tt)
      | _ => fun _ => None
      end k
  | _ => None
  end.

Definition config : Type := resourceUseStats * list (prog unit).

(** Interleaving semantics: any goroutine whose next action is enabled may
    move; a receiver and a sender on the same unbuffered channel move
    together. *)
Inductive step : config -> config -> Prop :=
| step_local lb pool i p p' lb' :
    pool !! i = Some p ->
    thread_step p lb = Some (p', lb') ->
    step (lb, pool) (lb', <[i := p']> pool)
| step_sync lb pool i j pr ps c pr' ps' :
    i ≠ j ->
    pool !! i = Some pr ->
    pool !! j = Some ps ->
    at_recv pr = Some (c, pr') ->
    at_send ps = Some (c, ps') ->
    step (lb, pool) (lb, <[i := pr']> (<[j := ps']> pool)).

Definition finished (p : prog unit) : bool :=
  match p with Ret _ => true | _ => false end.

(** A configuration from which no goroutine can ever move again although
    some call has not returned. *)
Definition deadlocked (c : config) : Prop :=
  (∀ c', ¬ step c c') ∧ ∃ p, p ∈ c.2 ∧ finished p = false.

(** ** The overlay, as the balancer sees it *)

(** Modelled from the spec: the type [PeerBin] is declared outside this file;
    a bin exposes its proximity order, its size and a peer iterator.  The
    entries are those the [PeerIterator] yields, in the overlay's order. *)
Record PeerBin : Type := mkPeerBin {
  ProximityOrder : Z;
  Size : Z;
  entries : list Peer
}.

(** An iterator of the overlay driving a callback that keeps its captured
    variables in [C] and may panic ([None]): it stops at the first [false]
    and reports whether it reached the end. *)
Fixpoint iterate {X C : Type} (xs : list X) (f : X -> C -> option (bool * C)) (c : C)
  : option (bool * C) :=
  match xs with
  | [] => Some (true, c)
  | x :: rest =>
      match f x c with
      | Some (true, c') => iterate rest f c'
      | other => other
      end
  end.

(** [bin.PeerIterator(f)] *)
Definition PeerIterator {C : Type} (bin : PeerBin) (f : Peer -> C -> option (bool * C)) (c : C)
  : option (bool * C) :=
  iterate (entries bin) f c.

(** Modelled from the spec: the [KademliaBackend] interface is declared in the
    file, its implementation is the overlay.  Each enumeration is given by the
    sequence the overlay offers to the callback (bins with proximity order at
    least the minimum asked for, descending; connections in descending
    proximity to the base); the filtered one also by the error it returns
    after the bins it offered. *)
Record KademliaBackend : Type := mkBackend {
  BaseAddr : list byte;
  EachBinDesc : list byte -> Z -> list PeerBin;
  EachBinDescFiltered : list byte -> string -> Z -> list PeerBin * option string;
  EachConn : list byte -> Z -> list (Peer * Z)
}.

(** The overlay calling a callback that works on the table, until the
    callback returns [false]. *)
Fixpoint each {X C : Type} (xs : list X) (consumer : X -> C -> prog (bool * C)) (c : C)
  : prog C :=
  match xs with
  | [] => Ret c
  | x :: rest =>
      let! r := consumer x c in
      if r.1 then each rest consumer r.2 else Ret r.2
  end.

(** ** The balancer *)

Record LBPeer : Type := mkLBPeer { LBPeer_Peer : Peer; Use : prog unit }.

Record LBBin : Type := mkLBBin { LBPeers : list LBPeer; LBBin_ProximityOrder : Z }.

(** [LBBinConsumer]: a closure of the caller; [C] holds what it captured. *)
Definition LBBinConsumer (C : Type) : Type := LBBin -> C -> prog (bool * C).

Record ResourceCount : Type := mkResourceCount { resource : Resource; count : Z }.

(** The [less] closure handed to [sort.Slice] by [sortResources]. *)
Definition less_count (a b : ResourceCount) : bool := (count a <? count b)%Z.

(** [getAllUses] *)
Fixpoint getAllUses (resources : list Resource) : prog (list ResourceCount) :=
  match resources with
  | [] => Ret []
  | r :: rest =>
      let! c := getUses r in
      let! peerUses := getAllUses rest in
      Ret ({| resource := r; count := c |} :: peerUses)
  end.

(** [toLBPeers]: the type assertion of [res] to a peer panics on the nil interface; each
    callback closes over the peer of its own iteration. *)
Fixpoint toLBPeers (resources : list Resource) : prog (list LBPeer) :=
  match resources with
  | [] => Ret []
  | None :: _ => Panic
  | Some peer :: rest =>
      let! peers := toLBPeers rest in
      Ret ({| LBPeer_Peer := peer; Use := do! addUse (Some peer) in Ret tt |} :: peers)
  end.

Record KademliaLoadBalancer : Type := mkKLB {
  kademlia : KademliaBackend;
  initCountFunc : Peer -> Z -> prog Z
}.

(** Modelled from the spec: what the subscription channels carry.  The type
    [newPeerSignal] (a peer and its proximity order) is declared outside this
    file. *)
Inductive message : Type :=
| MsgNewPeerSignal (peer : Peer) (po : Z)   (* a newPeerSignal *)
| MsgPeer (peer : option Peer)              (* a *Peer, possibly nil *)
| MsgOther.                                 (* any other value, also nil *)

(** What one round of a listener's [select] yields. *)
Inductive event : Type :=
| EvQuit                   (* quitC is closed *)
| EvClosed                 (* the subscription channel is closed *)
| EvMsg (msg : message).

Inductive listener_end : Type :=
| Returned     (* the loop has returned *)
| Listening.   (* the loop is parked in select, the events are used up *)

Section Balancer.

(** [sort.Slice] of Go's standard library, for slices of [ResourceCount]. *)
Variable sort_Slice :
  (ResourceCount -> ResourceCount -> bool) -> list ResourceCount -> list ResourceCount.

(** [sortResources] *)
Definition sortResources (resources : list Resource) : prog (list Resource) :=
  let! resourceCounts := getAllUses resources in
  Ret (map resource (sort_Slice less_count resourceCounts)).

(** [resourcesToLbPeers] *)
Definition resourcesToLbPeers (resources : list Resource) : prog (list LBPeer) :=
  let! sorted := sortResources resources in
  toLBPeers sorted.

(** [peerBinToPeerList]: [make] panics on a negative size, the store
    [resources[i] = entry.conn] on an index out of range; slots that stay
    nil make [getUses] panic. *)
Definition peerBinToPeerList (bin : PeerBin) : prog (list LBPeer) :=
  if (Size bin <? 0)%Z then Panic
  else
    let resources : list Resource := replicate (Z.to_nat (Size bin)) None in
    match
      PeerIterator bin
        (fun entry '(resources, i) =>
           if (i <? length resources)%nat
           then Some (true, (<[i := Some entry]> resources, S i))
           else None)
        (resources, 0%nat)
    with
    | Some (_, (resources, _)) => resourcesToLbPeers resources
    | None => Panic
    end.

(** [getPeersForPo] *)
Definition getPeersForPo (kad : KademliaBackend) (base : list byte) (po : Z)
  : prog (list LBPeer) :=
  let! resources :=
    each (EachBinDesc kad base po)
      (fun bin (resources : list Resource) =>
         if (ProximityOrder bin =? po)%Z then
           match
             PeerIterator bin
               (fun entry resources => Some (true, resources ++ [Some entry])) resources
           with
           | Some r => Ret r
           | None => Panic
           end
         else Ret (true, resources))
      [] in
  resourcesToLbPeers resources.

(** The loop of [leastUsedCountInBin]. *)
Fixpoint leastUsed_loop (peersInSamePo : list LBPeer) (excludePeer : Peer) : prog Z :=
  match peersInSamePo with
  | [] => Ret 0
  | leastUsed :: rest =>
      if negb (String.eqb (Key (LBPeer_Peer leastUsed)) (Key excludePeer)) then
        let! leastUsedCount := getUses (Some (LBPeer_Peer leastUsed)) in
        if key_prefix_ok (Key (LBPeer_Peer leastUsed)) then Ret leastUsedCount else Panic
      else leastUsed_loop rest excludePeer
  end.

(** [leastUsedCountInBin] *)
Definition leastUsedCountInBin (kad : KademliaBackend) (excludePeer : Peer) (po : Z)
  : prog Z :=
  let addr := BaseAddr kad in
  let! peersInSamePo := getPeersForPo kad addr po in
  leastUsed_loop peersInSamePo excludePeer.

(** The callback of [mostSimilarPeerCount], driven by [EachConn]. *)
Fixpoint mostSimilar_loop (conns : list (Peer * Z)) (newPeer : Peer) (count : Z) : prog Z :=
  match conns with
  | [] => Ret count
  | (peer, _) :: rest =>
      if negb (ptr peer =? ptr newPeer)%nat then
        let! count := getUses (Some peer) in
        if key_prefix_ok (Key peer) then Ret count else Panic
      else mostSimilar_loop rest newPeer count
  end.

(** [mostSimilarPeerCount] *)
Definition mostSimilarPeerCount (kad : KademliaBackend) (newPeer : Peer) (_ : Z) : prog Z :=
  mostSimilar_loop (EachConn kad (Address newPeer) 255) newPeer 0.

(** [NewKademliaLoadBalancer], without the subscriptions and goroutines. *)
Definition NewKademliaLoadBalancer (kad : KademliaBackend) (useMostSimilarInit : bool)
  : KademliaLoadBalancer :=
  {| kademlia := kad;
     initCountFunc :=
       if useMostSimilarInit then mostSimilarPeerCount kad else leastUsedCountInBin kad |}.

(** [addedPeer] *)
Definition addedPeer (klb : KademliaLoadBalancer) (peer : Peer) (po : Z) : prog unit :=
  let! initCount := initCountFunc klb peer 0 in
  if key_prefix_ok (Key peer) then initKey (Key peer) initCount else Panic.

(** [EachBin] *)
Definition EachBin {C : Type} (klb : KademliaLoadBalancer) (base : list byte)
    (consumeBin : LBBinConsumer C) (c : C) : prog C :=
  each (EachBinDesc (kademlia klb) base 0)
    (fun peerBin c =>
       let! peers := peerBinToPeerList peerBin in
       consumeBin {| LBPeers := peers; LBBin_ProximityOrder := ProximityOrder peerBin |} c)
    c.

(** [EachBinFiltered]: the error of the overlay is assigned to [_]; the
    function has no result. *)
Definition EachBinFiltered {C : Type} (klb : KademliaLoadBalancer) (base : list byte)
    (capKey : string) (consumeBin : LBBinConsumer C) (c : C) : prog C :=
  let (bins, _) := EachBinDescFiltered (kademlia klb) base capKey 0 in
  each bins
    (fun peerBin c =>
       let! peers := peerBinToPeerList peerBin in
       consumeBin {| LBPeers := peers; LBBin_ProximityOrder := ProximityOrder peerBin |} c)
    c.

(** [EachBinNodeAddress] *)
Definition EachBinNodeAddress {C : Type} (klb : KademliaLoadBalancer)
    (consumeBin : LBBinConsumer C) (c : C) : prog C :=
  EachBin klb (BaseAddr (kademlia klb)) consumeBin c.

(** [listenNewPeers], on the events its [select] receives. *)
Fixpoint listenNewPeers (klb : KademliaLoadBalancer) (events : list event)
  : prog listener_end :=
  match events with
  | [] => Ret Listening
  | EvQuit :: _ => Ret Returned
  | EvClosed :: _ => Ret Returned
  | EvMsg (MsgNewPeerSignal peer po) :: rest =>
      do! addedPeer klb peer po in listenNewPeers klb rest
  | EvMsg _ :: _ => Ret Returned
  end.

(** [listenOffPeers]: a closed channel yields nil messages, which are
    skipped like every message that is not a non-nil [*Peer]. *)
Fixpoint listenOffPeers (klb : KademliaLoadBalancer) (events : list event)
  : prog listener_end :=
  match events with
  | [] => Ret Listening
  | EvQuit :: _ => Ret Returned
  | EvMsg (MsgPeer (Some peer)) :: rest =>
      do! removedPeer peer in listenOffPeers klb rest
  | _ :: rest => listenOffPeers klb rest
  end.

End Balancer.

(** ** [sort.Slice] as Go 1.13 runs it on short slices

    The repository builds with Go 1.13, whose [sort.Slice] calls
    [quickSort_func(data, 0, length, maxDepth)].  That function partitions while
    the range holds more than 12 elements; on at most 12 it does one pass of
    ShellSort with gap 6 and then an insertion sort.  The definitions below are
    that last part, on the [Less] and [Swap] the slice gives; the partition
    loop is not modelled, so they are Go's [sort.Slice] on slices of at most
    12 elements only (and some sort on longer ones). *)
Module GoSort.
Section Slice.

Context {A : Type}.
Variable less : A -> A -> bool.

(** [data.Less(i, j)] *)
Definition Less (data : list A) (i j : nat) : bool :=
  match data !! i, data !! j with
  | Some x, Some y => less x y
  | _, _ => false
  end.

(** [data.Swap(i, j)] *)
Definition Swap (data : list A) (i j : nat) : list A :=
  match data !! i, data !! j with
  | Some x, Some y => <[i := y]> (<[j := x]> data)
  | _, _ => data
  end.

(** [for j := i; j > a && data.Less(j, j-1); j-- { data.Swap(j, j-1) }] *)
Fixpoint insertion_inner (data : list A) (a j : nat) : list A :=
  match j with
  | O => data
  | S j' =>
      if (a <? j)%nat && Less data j j'
      then insertion_inner (Swap data j j') a j'
      else data
  end.

(** [for i := ...; i < b; i++ { inner loop }], with [n] rounds to go. *)
Fixpoint insertion_outer (data : list A) (a i n : nat) : list A :=
  match n with
  | O => data
  | S n' => insertion_outer (insertion_inner data a i) a (S i) n'
  end.

(** [insertionSort_func(data, a, b)] *)
Definition insertionSort_func (data : list A) (a b : nat) : list A :=
  insertion_outer data a (a + 1) (b - (a + 1)).

(** [for i := a + 6; i < b; i++ { if data.Less(i, i-6) { data.Swap(i, i-6) } }],
    with [n] rounds to go. *)
Fixpoint shell_pass (data : list A) (i n : nat) : list A :=
  match n with
  | O => data
  | S n' =>
      shell_pass (if Less data i (i - 6) then Swap data i (i - 6) else data) (S i) n'
  end.

(** [quickSort_func(data, a, b, _)] once [b - a <= 12]. *)
Definition quickSort_func_short (data : list A) (a b : nat) : list A :=
  if (1 <? b - a)%nat
  then insertionSort_func (shell_pass data (a + 6) (b - (a + 6))) a b
  else data.

(** [sort.Slice(x, less)] for [len(x) <= 12]. *)
Definition Slice (x : list A) : list A := quickSort_func_short x 0 (length x).

End Slice.
End GoSort.

(** ** Calls on the table and sequences of them *)

Inductive table_call : Type :=
| CallGet (key : string)               (* getKeyUses *)
| CallAdd (resource : Resource)        (* addUse *)
| CallInit (key : string) (count : Z)  (* initKey *)
| CallWait (key : string)              (* waitKey *)
| CallRemove (peer : Peer).            (* removedPeer *)

(** The goroutine making one call; results are dropped. *)
Definition call_prog (c : table_call) : prog unit :=
  match c with
  | CallGet key => do! getKeyUses key in Ret tt
  | CallAdd resource => do! addUse resource in Ret tt
  | CallInit key count => initKey key count
  | CallWait key => waitKey key
  | CallRemove peer => removedPeer peer
  end.

(** Calls made one after the other by goroutines that each run alone. *)
Fixpoint sequence (ps : list (prog unit)) : prog unit :=
  match ps with
  | [] => Ret tt
  | p :: rest => do! p in sequence rest
  end.

(** The lock is free. *)
Definition lock_free (lb : resourceUseStats) : Prop :=
  lock lb = {| writer := false; readers := 0%nat |}.

(** The count [get] would return. *)
Definition uses_of (lb : resourceUseStats) (key : string) : Z :=
  default 0 (resourceUses lb !! key).

(** What [getAllUses] records for a peer. *)
Definition count_of (lb : resourceUseStats) (p : Peer) : ResourceCount :=
  {| resource := Some p; count := uses_of lb (Key p) |}.

(** A consumer that keeps every bin it is given and asks for the next. *)
Definition collect : LBBinConsumer (list LBBin) :=
  fun bin seen => Ret (true, seen ++ [bin]).

(** ** Control points of the five calls

    A goroutine making one of the calls of [table_call] is, at any time, at one
    of these points; [prog_of] gives what it still has to run and [tstep] the
    step it takes from there. *)

Inductive tstate : Type :=
| TG0 (key : string) | TG1 (key : string) | TG2 (key : string) (v : option Z)
| TA0 (r : Resource) | TA1 (p : Peer) | TA2 (p : Peer) (v : option Z) | TA3 (p : Peer)
| TA4 (r : option Z) | TAfail
| TI0 (key : string) (count : Z) | TI1 (key : string) (count : Z) | TI2 (key : string)
| TI3 (c : chan)
| TW0 (key : string) | TW1 (key : string) | TW2 (key : string) | TW3 (key : string) (c : chan)
| TW4 (key : string) | TW5 (key : string) (c : option chan) | TW6 (key : string)
| TR0 (peer : Peer) | TR1 (peer : Peer) | TR2
| TUnlock | TDone | TPanic.

Definition init_state (c : table_call) : tstate :=
  match c with
  | CallGet key => TG0 key
  | CallAdd r => TA0 r
  | CallInit key count => TI0 key count
  | CallWait key => TW0 key
  | CallRemove peer => TR0 peer
  end.

Definition prog_of (t : tstate) : prog unit :=
  match t with
  | TG0 key => call_prog (CallGet key)
  | TG1 key =>
      do! (let! v := act (AReadUses key) in do! act ARUnlock in Ret (default 0 v)) in Ret tt
  | TG2 key v => do! (do! act ARUnlock in Ret (default 0 v)) in Ret tt
  | TA0 r => call_prog (CallAdd r)
  | TA1 p =>
      do! (let! v := act (AReadUses (Key p)) in
           do! act (AWriteUses (Key p) (int_add (default 0 v) 1)) in
           let! r := act (AReadUses (Key p)) in
           do! act AUnlock in
           Ret (default 0 r)) in Ret tt
  | TA2 p v =>
      do! (do! act (AWriteUses (Key p) (int_add (default 0 v) 1)) in
           let! r := act (AReadUses (Key p)) in
           do! act AUnlock in
           Ret (default 0 r)) in Ret tt
  | TA3 p =>
      do! (let! r := act (AReadUses (Key p)) in
           do! act AUnlock in
           Ret (default 0 r)) in Ret tt
  | TA4 r => do! (do! act AUnlock in Ret (default 0 r)) in Ret tt
  | TAfail => do! (do! act AUnlock in (Panic : prog Z)) in Ret tt
  | TI0 key count => call_prog (CallInit key count)
  | TI1 key count =>
      do! act (AWriteUses key count) in
      let! w := act (AReadWaiting key) in
      match w with
      | Some kChan => do! act (ASend kChan) in act AUnlock
      | None => act AUnlock
      end
  | TI2 key =>
      let! w := act (AReadWaiting key) in
      match w with
      | Some kChan => do! act (ASend kChan) in act AUnlock
      | None => act AUnlock
      end
  | TI3 c => do! act (ASend c) in act AUnlock
  | TW0 key => call_prog (CallWait key)
  | TW1 key =>
      let! v := act (AReadUses key) in
      match v with
      | Some _ => act AUnlock
      | None =>
          let! c := act AMakeChan in
          do! act (AWriteWaiting key c) in
          let! c' := act (AReadWaiting key) in
          do! act (ARecv c') in
          do! act (ADeleteWaiting key) in
          act AUnlock
      end
  | TW2 key =>
      let! c := act AMakeChan in
      do! act (AWriteWaiting key c) in
      let! c' := act (AReadWaiting key) in
      do! act (ARecv c') in
      do! act (ADeleteWaiting key) in
      act AUnlock
  | TW3 key c =>
      do! act (AWriteWaiting key c) in
      let! c' := act (AReadWaiting key) in
      do! act (ARecv c') in
      do! act (ADeleteWaiting key) in
      act AUnlock
  | TW4 key =>
      let! c' := act (AReadWaiting key) in
      do! act (ARecv c') in
      do! act (ADeleteWaiting key) in
      act AUnlock
  | TW5 key c' =>
      do! act (ARecv c') in
      do! act (ADeleteWaiting key) in
      act AUnlock
  | TW6 key => do! act (ADeleteWaiting key) in act AUnlock
  | TR0 peer => call_prog (CallRemove peer)
  | TR1 peer => do! act (ADeleteUses (Key peer)) in act ALock
  | TR2 => act ALock
  | TUnlock => act AUnlock
  | TDone => Ret tt
  | TPanic => Panic
  end.

Definition on {B : Type} (e : action B) (lb : resourceUseStats) (k : B -> tstate)
  : option (tstate * resourceUseStats) :=
  match exec e lb with
  | Stepped b lb' => Some (k b, lb')
  | _ => None
  end.

Definition tstep (t : tstate) (lb : resourceUseStats) : option (tstate * resourceUseStats) :=
  match t with
  | TG0 key => on ARLock lb (fun _ => TG1 key)
  | TG1 key => on (AReadUses key) lb (fun v => TG2 key v)
  | TG2 key v => on ARUnlock lb (fun _ => TDone)
  | TA0 r =>
      on ALock lb
        (fun _ => match r with
                  | Some p => if key_prefix_ok (Key p) then TA1 p else TAfail
                  | None => TAfail
                  end)
  | TA1 p => on (AReadUses (Key p)) lb (fun v => TA2 p v)
  | TA2 p v => on (AWriteUses (Key p) (int_add (default 0 v) 1)) lb (fun _ => TA3 p)
  | TA3 p => on (AReadUses (Key p)) lb (fun r => TA4 r)
  | TA4 r => on AUnlock lb (fun _ => TDone)
  | TAfail => on AUnlock lb (fun _ => TPanic)
  | TI0 key count => on ALock lb (fun _ => TI1 key count)
  | TI1 key count => on (AWriteUses key count) lb (fun _ => TI2 key)
  | TI2 key =>
      on (AReadWaiting key) lb (fun w => match w with Some c => TI3 c | None => TUnlock end)
  | TI3 c => on (ASend c) lb (fun _ => TUnlock)
  | TW0 key => on ALock lb (fun _ => TW1 key)
  | TW1 key =>
      on (AReadUses key) lb (fun v => match v with Some _ => TUnlock | None => TW2 key end)
  | TW2 key => on AMakeChan lb (fun c => TW3 key c)
  | TW3 key c => on (AWriteWaiting key c) lb (fun _ => TW4 key)
  | TW4 key => on (AReadWaiting key) lb (fun c' => TW5 key c')
  | TW5 key c' => on (ARecv c') lb (fun _ => TW6 key)
  | TW6 key => on (ADeleteWaiting key) lb (fun _ => TUnlock)
  | TR0 peer => on ALock lb (fun _ => TR1 peer)
  | TR1 peer => on (ADeleteUses (Key peer)) lb (fun _ => TR2)
  | TR2 => on ALock lb (fun _ => TDone)
  | TUnlock => on AUnlock lb (fun _ => TDone)
  | TDone => None
  | TPanic => None
  end.

(** Which side of the lock a goroutine holds at a control point. *)
Inductive lock_mode : Type := NoLock | ReadMode | WriteMode.

#[global] Instance lock_mode_eq_dec : EqDecision lock_mode.
Proof. solve_decision. Defined.

Definition mode (t : tstate) : lock_mode :=
  match t with
  | TG0 _ | TA0 _ | TI0 _ _ | TW0 _ | TR0 _ | TDone | TPanic => NoLock
  | TG1 _ | TG2 _ _ => ReadMode
  | _ => WriteMode
  end.

(** The key a waiter has put into the wait map and not yet taken out. *)
Definition registered (t : tstate) : option string :=
  match t with
  | TW4 key | TW5 key _ | TW6 key => Some key
  | _ => None
  end.

(** The key a waiter has found absent from the counts and is about to put
    into the wait map. *)
Definition registering (t : tstate) : option string :=
  match t with
  | TW2 key | TW3 key _ => Some key
  | _ => None
  end.

(** The two maps share no key. *)
Definition maps_disjoint (lb : resourceUseStats) : Prop :=
  ∀ key, ¬ (is_Some (waiting lb !! key) ∧ is_Some (resourceUses lb !! key)).

(** What holds of the table while the goroutine at [t] has the write lock. *)
Definition writer_view (t : tstate) (lb : resourceUseStats) : Prop :=
  (∀ key, is_Some (waiting lb !! key) -> registered t = Some key) ∧
  (∀ key, registering t = Some key -> resourceUses lb !! key = None).

Record pool_inv (lb : resourceUseStats) (ts : list tstate) : Prop := mkPoolInv {
  inv_exclusive : ∀ i j ti tj,
    ts !! i = Some ti -> ts !! j = Some tj ->
    mode ti = WriteMode -> mode tj = WriteMode -> i = j;
  inv_locked : ∀ i t, ts !! i = Some t -> mode t = WriteMode -> writer (lock lb) = true;
  inv_view : ∀ i t, ts !! i = Some t -> mode t = WriteMode -> writer_view t lb;
  inv_idle : (∀ i t, ts !! i = Some t -> mode t ≠ WriteMode) -> ∀ key, waiting lb !! key = None;
  inv_disjoint : maps_disjoint lb
}.

(** The control points of [removedPeer]. *)
Definition in_remove (t : tstate) : Prop :=
  match t with
  | TR0 _ | TR1 _ | TR2 => True
  | _ => False
  end.

(** ** What happens around the invocations of a use-callback *)

(** One thing done on the table: the callback under study is invoked, or
    some other call is made. *)
Inductive moment : Type :=
| UseIt
| Other (c : table_call).

(** Calls that leave the count of [key] alone and return: reads, and uses and
    initialisations of other keys. *)
Definition elsewhere (key : string) (m : moment) : Prop :=
  match m with
  | UseIt => True
  | Other (CallGet _) => True
  | Other (CallAdd (Some p)) => Key p ≠ key ∧ Address p ≠ []
  | Other (CallInit k _) => k ≠ key
  | Other _ => False
  end.

Definition moment_prog (e : LBPeer) (m : moment) : prog unit :=
  match m with
  | UseIt => Use e
  | Other c => call_prog c
  end.

(** How often the callback is invoked. *)
Fixpoint invocations (ms : list moment) : Z :=
  match ms with
  | [] => 0
  | UseIt :: rest => 1 + invocations rest
  | Other _ :: rest => invocations rest
  end.

(** ** Concrete overlays and tables used as inputs *)

(** An overlay with fixed bins (listed in descending proximity order) and
    fixed connections, that knows no capability. *)
Definition overlay (base : list byte) (bins : list PeerBin) (conns : list (Peer * Z))
  : KademliaBackend :=
  {| BaseAddr := base;
     EachBinDesc := fun _ minProximityOrder =>
       filter (fun bin => minProximityOrder <= ProximityOrder bin) bins;
     EachBinDescFiltered := fun _ capKey _ =>
       ([], Some ("Cannot found capability key " +:+ capKey)%string);
     EachConn := fun _ _ => conns |}.

Definition bin_of (po : Z) (peers : list Peer) : PeerBin :=
  {| ProximityOrder := po; Size := Z.of_nat (length peers); entries := peers |}.

(** A table with the given counts, free lock and no waiter. *)
Definition table_of (counts : list (string * Z)) : resourceUseStats :=
  {| resourceUses := list_to_map counts; waiting := ∅;
     lock := {| writer := false; readers := 0%nat |}; next_chan := 0%nat |}.

Definition peerA : Peer := {| ptr := 1; Address := [x20] |}.
Definition peerB : Peer := {| ptr := 2; Address := [x28] |}.
Definition peerC : Peer := {| ptr := 3; Address := [x30] |}.
Definition peerD : Peer := {| ptr := 4; Address := [x38] |}.

(** The value a call returned, if it returned. *)
Definition returned {A : Type} (o : outcome A) : option A :=
  match o with
  | Done a _ => Some a
  | _ => None
  end.

(** The table a call left behind. *)
Definition final_table {A : Type} (o : outcome A) : resourceUseStats :=
  match o with
  | Done _ lb | Blocked lb | Panicked lb => lb
  end.

Definition entry_of (p : Peer) : LBPeer :=
  {| LBPeer_Peer := p; Use := do! addUse (Some p) in Ret tt |}.

(** A table in which peer A has been used as often as an [int] can count. *)
Definition table_full : resourceUseStats := table_of [(Key peerA, int_max)].

Definition table_AB : resourceUseStats := table_of [(Key peerA, 5); (Key peerB, 2)].

(** Three incumbents A, B, C and the newcomer D in the bin of proximity
    order 2, from a base address [00]; the counts of the incumbents. *)
Definition overlay_po2 : KademliaBackend :=
  overlay [x00] [bin_of 2 [peerA; peerB; peerC; peerD]]
    [(peerA, 2); (peerB, 2); (peerC, 2); (peerD, 2)].

Definition table_527 : resourceUseStats :=
  table_of [(Key peerA, 5); (Key peerB, 2); (Key peerC, 7)].

(** An overlay whose only peer is A. *)
Definition overlay_A : KademliaBackend := overlay [x00] [bin_of 2 [peerA]] [(peerA, 2)].

(** The table after Removed(A) on a table that held only A: the count is
    gone and the write lock is still held. *)
Definition table_stuck : resourceUseStats :=
  {| resourceUses := ∅; waiting := ∅;
     lock := {| writer := true; readers := 0%nat |}; next_chan := 0%nat |}.

(** Connections as [EachConn] lists them from D's address: D itself, then C
    (the closest other peer), then A and B. *)
Definition overlay_near_D : KademliaBackend :=
  overlay [x00] [bin_of 2 [peerA; peerB; peerC; peerD]]
    [(peerD, 8); (peerC, 4); (peerA, 3); (peerB, 3)].

Definition table_529 : resourceUseStats :=
  table_of [(Key peerA, 5); (Key peerB, 2); (Key peerC, 9)].

(** The first connection that is not the new peer, by pointer. *)
Definition first_other (newPeer : Peer) (conns : list (Peer * Z)) : option (Peer * Z) :=
  head (filter (fun c => ptr c.1 ≠ ptr newPeer) conns).

(** ** Events of the listeners *)

(** A message the added-peer listener handles. *)
Definition is_signal (ev : event) : Prop :=
  ∃ peer po, ev = EvMsg (MsgNewPeerSignal peer po).

(** The subscription channel is closed, or it delivers something that is not
    a [newPeerSignal]. *)
Definition not_a_signal (ev : event) : Prop :=
  match ev with
  | EvClosed => True
  | EvMsg (MsgNewPeerSignal _ _) => False
  | EvMsg _ => True
  | EvQuit => False
  end.

(** ** Filtered enumeration *)

(** An overlay that accepts every capability and has no peer for any. *)
Definition overlay_accepting : KademliaBackend :=
  {| BaseAddr := [x00];
     EachBinDesc := fun _ _ => [];
     EachBinDescFiltered := fun _ _ _ => ([], None);
     EachConn := fun _ _ => [] |}.

(** An overlay without peers that knows no capability. *)
Definition overlay_refusing : KademliaBackend := overlay [x00] [] [].

(** The caller of [EachBinFiltered] can tell from what the call leaves (the
    bins its consumer was given, the table, the way the call ended) whether
    the overlay returned an error. *)
Definition failure_surfaced
    (sort_Slice : (ResourceCount -> ResourceCount -> bool) ->
                  list ResourceCount -> list ResourceCount) : Prop :=
  ∃ observe : outcome (list LBBin) -> bool,
    ∀ kad base capKey lb,
      observe (run (EachBinFiltered sort_Slice (NewKademliaLoadBalancer sort_Slice kad false)
                      base capKey collect []) lb)
      = bool_decide (is_Some (EachBinDescFiltered kad base capKey 0).2).

(** ** Snapshots of bins *)

(** The announced size of a bin is the number of entries its iterator yields. *)
Definition well_sized (bin : PeerBin) : Prop :=
  Size bin = Z.of_nat (length (entries bin)).

(** For all [i < j], the count of entry [i] is at most the count of entry [j]. *)
Definition ascending (lb : resourceUseStats) (l : list LBPeer) : Prop :=
  ∀ i j ei ej, (i < j)%nat -> l !! i = Some ei -> l !! j = Some ej ->
    uses_of lb (Key (LBPeer_Peer ei)) <= uses_of lb (Key (LBPeer_Peer ej)).

(** Entries with equal counts stand in the order in which the overlay
    enumerates the bin. *)
Definition ties_keep_order (lb : resourceUseStats) (enumeration : list Peer)
    (l : list LBPeer) : Prop :=
  ∀ i j ei ej, (i < j)%nat -> l !! i = Some ei -> l !! j = Some ej ->
    uses_of lb (Key (LBPeer_Peer ei)) = uses_of lb (Key (LBPeer_Peer ej)) ->
    ∃ i' j', enumeration !! i' = Some (LBPeer_Peer ei) ∧
             enumeration !! j' = Some (LBPeer_Peer ej) ∧ (i' < j')%nat.

(** What [EachBin] hands over for a bin of the overlay: the same proximity
    order, the entries sorted by count, the peers a rearrangement of the
    bin's. *)
Definition projects (lb : resourceUseStats) (b : LBBin) (bin : PeerBin) : Prop :=
  LBBin_ProximityOrder b = ProximityOrder bin ∧
  ascending lb (LBPeers b) ∧
  LBPeer_Peer <$> LBPeers b ≡ₚ entries bin.

Definition peerE : Peer := {| ptr := 5; Address := [x21] |}.
Definition peerF : Peer := {| ptr := 6; Address := [x29] |}.
Definition peerG : Peer := {| ptr := 7; Address := [x31] |}.

(** A bin of seven peers, enumerated A to G, four of them with count 5. *)
Definition overlay_seven : KademliaBackend :=
  overlay [x00] [bin_of 2 [peerA; peerB; peerC; peerD; peerE; peerF; peerG]] [].

Definition table_seven : resourceUseStats :=
  table_of [(Key peerA, 5); (Key peerB, 5); (Key peerC, 2); (Key peerD, 5);
            (Key peerE, 5); (Key peerF, 5); (Key peerG, 3)].

(** ** Debug functions

    [byteToBinary], [peerToBinaryId] and [stringBinaryToHex], with the two
    functions of [strconv] they call, for base 2 as they are called:
    [FormatUint(u, 2)] (the power-of-two loop of [formatBits]) and
    [ParseInt(s, 2, 0)]. *)

(** [strconv]'s table of digits. *)
Definition digits : string := "0123456789abcdefghijklmnopqrstuvwxyz"%string.

Definition digit_char (d : N) : ascii :=
  default "0"%char (String.get (N.to_nat d) digits).

(** [for u >= 2 { i--; a[i] = digits[u&1]; u >>= 1 }; i--; a[i] = digits[u]];
    the fuel covers the 64 bits of a [uint64]. *)
Fixpoint formatBits2 (fuel : nat) (u : N) (a : string) : string :=
  match fuel with
  | O => a
  | S fuel' =>
      if (2 <=? u)%N
      then formatBits2 fuel' (N.shiftr u 1) (String (digit_char (N.land u 1)) a)
      else String (digit_char u) a
  end.

(** [strconv.FormatUint(i, 2)] *)
Definition FormatUint2 (i : N) : string := formatBits2 64 i ""%string.

(** [for i := 8 - len(binary); i > 0; i-- { binary = "0" + binary }] *)
Fixpoint pad_zeros (i : nat) (binary : string) : string :=
  match i with
  | O => binary
  | S i' => pad_zeros i' (String "0"%char binary)
  end.

(** [byteToBinary] *)
Definition byteToBinary (b : byte) : string :=
  let binary := FormatUint2 (Byte.to_N b) in
  if (String.length binary <? 8)%nat
  then pad_zeros (8 - String.length binary) binary
  else binary.

(** [peerToBinaryId]: indexing an empty address panics ([None]). *)
Definition peerToBinaryId (peer : Peer) : option string :=
  match Address peer with
  | [] => None
  | b :: _ => Some (byteToBinary b)
  end.

(** How a parse of [strconv] ends. *)
Inductive parse_error : Type := NoError | ErrSyntax | ErrRange.

(** The value of a digit of [ParseUint]: decimal digits, then letters of
    either case from 10 on. *)
Definition digit_value (c : ascii) : option N :=
  let n := N_of_ascii c in
  let lower := N.lor n 32 in
  if ((48 <=? n) && (n <=? 57))%N then Some (n - 48)%N
  else if ((97 <=? lower) && (lower <=? 122))%N then Some (lower - 97 + 10)%N
  else None.

(** The loop of [ParseUint(s, 2, 64)]: a character that is no digit below
    the base is a syntax error; a value that does not fit 64 bits is a range
    error with the largest value. *)
Fixpoint ParseUint2_loop (s : string) (n : N) : N * parse_error :=
  match s with
  | EmptyString => (n, NoError)
  | String c rest =>
      match digit_value c with
      | None => (0%N, ErrSyntax)
      | Some d =>
          if (2 <=? d)%N then (0%N, ErrSyntax)
          else if (2 ^ 63 <=? n)%N then ((2 ^ 64 - 1)%N, ErrRange)
          else
            let n1 := (n * 2 + d)%N in
            if (2 ^ 64 - 1 <? n1)%N then ((2 ^ 64 - 1)%N, ErrRange)
            else ParseUint2_loop rest n1
      end
  end.

(** [strconv.ParseUint(s, 2, 0)] *)
Definition ParseUint2 (s : string) : N * parse_error :=
  match s with
  | EmptyString => (0%N, ErrSyntax)
  | _ => ParseUint2_loop s 0%N
  end.

(** [strconv.ParseInt(s, 2, 0)] on a 64-bit [int]. *)
Definition ParseInt2 (s : string) : Z * parse_error :=
  match s with
  | EmptyString => (0, ErrSyntax)
  | String c rest =>
      let neg := Ascii.eqb c "-"%char in
      let s' := if Ascii.eqb c "+"%char || neg then rest else s in
      match ParseUint2 s' with
      | (_, ErrSyntax) => (0, ErrSyntax)
      | (un, _) =>
          if negb neg && (2 ^ 63 <=? un)%N then (2 ^ 63 - 1, ErrRange)
          else if neg && (2 ^ 63 <? un)%N then (- 2 ^ 63, ErrRange)
          else (if neg then - Z.of_N un else Z.of_N un, NoError)
      end
  end.

(** The conversion [byte(i)] of an [int]: its low eight bits. *)
Definition byte_of_int (i : Z) : byte :=
  default x00 (Byte.of_N (Z.to_N (i `mod` 256))).

(** [stringBinaryToHex]: the error of [ParseInt] is dropped. *)
Definition stringBinaryToHex (binary : string) : string :=
  let byteSlice := replicate 32 x00 in
  let i := (ParseInt2 binary).1 in
  hexutil_Encode (<[0%nat := byte_of_int i]> byteSlice).

(** The value of a hexadecimal digit of [hextable]. *)
Definition hex_value (c : ascii) : N :=
  match digit_value c with
  | Some d => d
  | None => 0%N
  end.

(** ** Keys of calls *)

(** The key a call works on ([None] for [addUse] on the nil interface). *)
Definition call_key (c : table_call) : option string :=
  match c with
  | CallGet key | CallInit key _ | CallWait key => Some key
  | CallAdd (Some p) => Some (Key p)
  | CallAdd None => None
  | CallRemove peer => Some (Key peer)
  end.

(** ** Bins at a proximity order *)

(** The peers [getPeersForPo] gathers: the entries of every bin the overlay
    offers, from the minimum [po] on, whose proximity order is [po]. *)
Definition peers_at (kad : KademliaBackend) (base : list byte) (po : Z) : list Peer :=
  flat_map entries (filter (fun bin => ProximityOrder bin = po) (EachBinDesc kad base po)).

(** The peers among [ps] whose key is not that of [excludePeer]. *)
Definition others (excludePeer : Peer) (ps : list Peer) : list Peer :=
  filter (fun q => Key q ≠ Key excludePeer) ps.

(** [r] is the least count among [ps], or 0 when there is none. *)
Definition least_count (lb : resourceUseStats) (ps : list Peer) (r : Z) : Prop :=
  (ps = [] ∧ r = 0) ∨
  ((∃ q, q ∈ ps ∧ r = uses_of lb (Key q)) ∧ ∀ q, q ∈ ps -> r <= uses_of lb (Key q)).

(** A consumer that keeps the bins it is given and stops the enumeration
    with the [n]-th. *)
Definition collect_first (n : nat) : LBBinConsumer (list LBBin) :=
  fun bin seen => Ret ((length seen + 1 <? n)%nat, seen ++ [bin]).

(** ** More about the listeners *)

(** An event the removed-peer listener passes over: anything but the quit
    signal and a non-nil peer. *)
Definition skipped (ev : event) : Prop :=
  match ev with
  | EvQuit | EvMsg (MsgPeer (Some _)) => False
  | _ => True
  end.

(** The event of a [newPeerSignal]. *)
Definition signal (s : Peer * Z) : event := EvMsg (MsgNewPeerSignal s.1 s.2).

(** Every peer the overlay enumerates has a non-empty address. *)
Definition addressed (kad : KademliaBackend) : Prop :=
  (∀ base po bin q, bin ∈ EachBinDesc kad base po -> q ∈ entries bin -> Address q ≠ []) ∧
  (∀ base po c, c ∈ EachConn kad base po -> Address c.1 ≠ []).

(** An overlay that knows every capability: it offers the bin of A and B
    and then reports an error all the same. *)
Definition overlay_capable : KademliaBackend :=
  {| BaseAddr := [x00];
     EachBinDesc := fun _ _ => [bin_of 2 [peerA; peerB]];
     EachBinDescFiltered := fun _ _ _ => ([bin_of 2 [peerA; peerB]], Some "late failure"%string);
     EachConn := fun _ _ => [(peerA, 2); (peerB, 2)] |}.

(** The four peers in the bin of proximity order 0. *)
Definition overlay_far : KademliaBackend :=
  overlay [x00] [bin_of 0 [peerA; peerB; peerC; peerD]] [].

(** An overlay whose second bin announces a size it does not have. *)
Definition overlay_bad_tail : KademliaBackend :=
  overlay [x00]
    [bin_of 2 [peerA; peerB]; {| ProximityOrder := 1; Size := 5; entries := [peerC] |}] [].

(** ** Pools of goroutines *)

(** Whether a goroutine at [t] holds the lock on side [m]. *)
Definition holds (m : lock_mode) (t : tstate) : nat :=
  if decide (mode t = m) then 1%nat else 0%nat.

(** The number of goroutines of a pool that hold the lock on side [m]. *)
Definition holders (m : lock_mode) (ts : list tstate) : nat :=
  sum_list (holds m <$> ts).

(** The lock records exactly who holds it, and never a writer beside readers. *)
Definition lock_accounted (lb : resourceUseStats) (ts : list tstate) : Prop :=
  readers (lock lb) = holders ReadMode ts ∧
  (if writer (lock lb) then 1%nat else 0%nat) = holders WriteMode ts ∧
  (writer (lock lb) = true -> readers (lock lb) = 0%nat).

(** The calls that neither wait for a signal nor remove a peer. *)
Definition quiet (c : table_call) : Prop :=
  match c with
  | CallGet _ | CallAdd _ | CallInit _ _ => True
  | _ => False
  end.

(** The control points of the quiet calls when nobody waits. *)
Definition quiet_state (t : tstate) : Prop :=
  match t with
  | TG0 _ | TG1 _ | TG2 _ _
  | TA0 _ | TA1 _ | TA2 _ _ | TA3 _ | TA4 _ | TAfail
  | TI0 _ _ | TI1 _ _ | TI2 _ | TUnlock | TDone | TPanic => True
  | _ => False
  end.

(** The call has returned or panicked. *)
Definition ended (t : tstate) : bool :=
  match t with
  | TDone | TPanic => true
  | _ => false
  end.

(** A bound on the steps a quiet call still takes. *)
Definition steps_left (t : tstate) : nat :=
  match t with
  | TA0 _ => 5
  | TA1 _ | TI0 _ _ => 4
  | TG0 _ | TA2 _ _ | TI1 _ _ => 3
  | TG1 _ | TA3 _ | TI2 _ => 2
  | TG2 _ _ | TA4 _ | TAfail | TUnlock => 1
  | _ => 0
  end.

(** The calls that read or count. *)
Definition counting (c : table_call) : Prop :=
  match c with
  | CallGet _ | CallAdd _ => True
  | _ => False
  end.

(** Whether the call is a use of [key]. *)
Definition add_on (key : string) (c : table_call) : nat :=
  match c with
  | CallAdd (Some p) => if decide (Key p = key) then 1%nat else 0%nat
  | _ => 0%nat
  end.

(** The number of uses of [key] among the calls. *)
Definition adds_on (key : string) (calls : list table_call) : nat :=
  sum_list (add_on key <$> calls).

(** The control points a counting call goes through. *)
Definition follows (c : table_call) (t : tstate) : Prop :=
  match c, t with
  | CallGet key, (TG0 k | TG1 k | TG2 k _) => k = key
  | CallGet _, TDone => True
  | CallAdd r, TA0 r' => r' = r
  | CallAdd r, (TA1 p | TA2 p _ | TA3 p) => r = Some p
  | CallAdd (Some _), (TA4 _ | TDone) => True
  | CallAdd _, (TAfail | TPanic) => True
  | _, _ => False
  end.

(** Whether the call, at [t], has written its use of [key]. *)
Definition credit (key : string) (c : table_call) (t : tstate) : nat :=
  match t with
  | TA3 _ | TA4 _ | TDone => add_on key c
  | _ => 0%nat
  end.

(** The number of uses of [key] written so far. *)
Fixpoint credits (key : string) (calls : list table_call) (ts : list tstate) : nat :=
  match calls, ts with
  | c :: calls, t :: ts => (credit key c t + credits key calls ts)%nat
  | _, _ => 0%nat
  end.

(** * Properties *)

(** ** Running programs *)

Lemma run_bind {A B : Type} (p : prog A) (f : A -> prog B) lb :
  run (bind p f) lb = run_bind_cont f (run p lb).
Proof.
  revert lb. induction p as [a| |C e k IH]; intros lb; simpl; try reflexivity.
  destruct (exec e lb); simpl; auto.
Qed.

Lemma run_bind_Done {A B : Type} (p : prog A) (f : A -> prog B) lb a lb' :
  run p lb = Done a lb' -> run (bind p f) lb = run (f a) lb'.
Proof. intros H. rewrite run_bind, H. reflexivity. Qed.

Lemma run_bind_Blocked {A B : Type} (p : prog A) (f : A -> prog B) lb lb' :
  run p lb = Blocked lb' -> run (bind p f) lb = Blocked lb'.
Proof. intros H. rewrite run_bind, H. reflexivity. Qed.

Lemma run_bind_Panicked {A B : Type} (p : prog A) (f : A -> prog B) lb lb' :
  run p lb = Panicked lb' -> run (bind p f) lb = Panicked lb'.
Proof. intros H. rewrite run_bind, H. reflexivity. Qed.

Lemma lock_free_readable lb : lock_free lb -> writer (lock lb) = false.
Proof. unfold lock_free. intros ->. reflexivity. Qed.

(** A read leaves the table as it found it. *)
Lemma run_getKeyUses lb key :
  writer (lock lb) = false ->
  run (getKeyUses key) lb = Done (uses_of lb key) lb.
Proof.
  destruct lb as [u w [wr rd] nc]. simpl. intros ->. reflexivity.
Qed.

Lemma run_getKeyUses_locked lb key :
  writer (lock lb) = true -> run (getKeyUses key) lb = Blocked lb.
Proof. intros H. simpl. rewrite H. reflexivity. Qed.

Lemma run_addUse lb p :
  lock_free lb -> key_prefix_ok (Key p) = true ->
  run (addUse (Some p)) lb =
    Done (int_add (uses_of lb (Key p)) 1)
         (set_uses (<[Key p := int_add (uses_of lb (Key p)) 1]> (resourceUses lb)) lb).
Proof.
  destruct lb as [u w lk nc]. unfold lock_free. simpl. intros -> Hk.
  unfold addUse. rewrite Hk. simpl. rewrite lookup_insert_eq. reflexivity.
Qed.

Lemma run_addUse_locked lb r :
  writer (lock lb) = true -> run (addUse r) lb = Blocked lb.
Proof. intros H. simpl. rewrite H. reflexivity. Qed.

Lemma run_initKey lb key count :
  lock_free lb -> waiting lb !! key = None ->
  run (initKey key count) lb = Done tt (set_uses (<[key := count]> (resourceUses lb)) lb).
Proof.
  destruct lb as [u w lk nc]. unfold lock_free. simpl. intros -> Hw.
  simpl. rewrite Hw. reflexivity.
Qed.

Lemma run_initKey_locked lb key count :
  writer (lock lb) = true -> run (initKey key count) lb = Blocked lb.
Proof. intros H. simpl. rewrite H. reflexivity. Qed.

Lemma run_waitKey_present lb key v :
  lock_free lb -> resourceUses lb !! key = Some v ->
  run (waitKey key) lb = Done tt lb.
Proof.
  destruct lb as [u w lk nc]. unfold lock_free. simpl. intros -> Hu.
  simpl. rewrite Hu. reflexivity.
Qed.

Lemma run_waitKey_absent lb key :
  lock_free lb -> resourceUses lb !! key = None ->
  run (waitKey key) lb =
    Blocked {| resourceUses := resourceUses lb;
               waiting := <[key := next_chan lb]> (waiting lb);
               lock := {| writer := true; readers := 0%nat |};
               next_chan := S (next_chan lb) |}.
Proof.
  destruct lb as [u w lk nc]. unfold lock_free. simpl. intros -> Hu.
  simpl. rewrite Hu. reflexivity.
Qed.

Lemma run_removedPeer lb peer :
  lock_free lb ->
  run (removedPeer peer) lb =
    Blocked (set_lock {| writer := true; readers := 0%nat |}
               (set_uses (delete (Key peer) (resourceUses lb)) lb)).
Proof.
  destruct lb as [u w lk nc]. unfold lock_free. simpl. intros ->. reflexivity.
Qed.

Lemma run_removedPeer_locked lb peer :
  writer (lock lb) = true -> run (removedPeer peer) lb = Blocked lb.
Proof. intros H. simpl. rewrite H. reflexivity. Qed.

(** ** Helper facts *)

Lemma wrap_int_id z : int_min <= z <= int_max -> wrap_int z = z.
Proof.
  unfold wrap_int, int_min, int_max. intros H.
  rewrite Z.mod_small by lia. lia.
Qed.

Lemma key_prefix_ok_nonempty p : Address p ≠ [] -> key_prefix_ok (Key p) = true.
Proof.
  unfold Key, hexutil_Encode. destruct (Address p) as [|b rest]; [congruence|].
  intros _. reflexivity.
Qed.

Lemma run_bind_inv {A B : Type} (p : prog A) (f : A -> prog B) lb b lb' :
  run (bind p f) lb = Done b lb' ->
  ∃ a lb1, run p lb = Done a lb1 ∧ run (f a) lb1 = Done b lb'.
Proof.
  rewrite run_bind. destruct (run p lb) as [a lb1| |]; simpl; [eauto|discriminate..].
Qed.

Lemma toLBPeers_Use rs lb l lb' :
  run (toLBPeers rs) lb = Done l lb' ->
  ∀ e, e ∈ l -> Use e = do! addUse (Some (LBPeer_Peer e)) in Ret tt.
Proof.
  revert l. induction rs as [|[p|] rs IH]; simpl; intros l H.
  - injection H as <- <-. intros e He. inversion He.
  - apply run_bind_inv in H as (l1 & lb1 & H1 & H2). simpl in H2. injection H2 as <- <-.
    intros e He. apply elem_of_cons in He as [->|He]; [reflexivity|]. eapply IH; eauto.
  - discriminate.
Qed.

Lemma snapshot_Use sort_Slice bin lb snapshot lb' :
  run (peerBinToPeerList sort_Slice bin) lb = Done snapshot lb' ->
  ∀ e, e ∈ snapshot -> Use e = do! addUse (Some (LBPeer_Peer e)) in Ret tt.
Proof.
  unfold peerBinToPeerList. destruct (Size bin <? 0); [discriminate|].
  destruct (PeerIterator _ _ _) as [[b [rs n]]|]; [|discriminate].
  unfold resourcesToLbPeers. intros H.
  apply run_bind_inv in H as (sorted & lb1 & _ & H). eapply toLBPeers_Use; eauto.
Qed.

Lemma uses_of_insert_eq lb key v :
  uses_of (set_uses (<[key := v]> (resourceUses lb)) lb) key = v.
Proof. unfold uses_of. simpl. rewrite lookup_insert_eq. reflexivity. Qed.

Lemma uses_of_insert_ne lb key key' v :
  key' ≠ key -> uses_of (set_uses (<[key' := v]> (resourceUses lb)) lb) key = uses_of lb key.
Proof. intros H. unfold uses_of. simpl. rewrite lookup_insert_ne by assumption. reflexivity. Qed.

Lemma run_moments e ms :
  Use e = (do! addUse (Some (LBPeer_Peer e)) in Ret tt) ->
  Address (LBPeer_Peer e) ≠ [] ->
  Forall (elsewhere (Key (LBPeer_Peer e))) ms ->
  ∀ lb,
    lock_free lb -> (∀ key, waiting lb !! key = None) ->
    int_min <= uses_of lb (Key (LBPeer_Peer e)) ->
    uses_of lb (Key (LBPeer_Peer e)) + invocations ms <= int_max ->
    ∃ lb', run (sequence (moment_prog e <$> ms)) lb = Done tt lb' ∧
           lock_free lb' ∧ (∀ key, waiting lb' !! key = None) ∧
           uses_of lb' (Key (LBPeer_Peer e)) =
             uses_of lb (Key (LBPeer_Peer e)) + invocations ms.
Proof.
  intros HUse Haddr. set (k := Key (LBPeer_Peer e)).
  assert (Hinv0 : ∀ ms, 0 <= invocations ms).
  { clear. induction ms as [|[|c] ms IH]; simpl; lia. }
  induction 1 as [|m ms Hm _ IH]; intros lb Hfree Hwait Hlo Hhi.
  - exists lb. simpl. repeat split; auto. lia.
  - pose proof (Hinv0 ms) as Hpos.
    destruct m as [|c]; cbn [fmap list_fmap sequence moment_prog invocations] in *.
    + rewrite HUse. 
      erewrite run_bind_Done; [|erewrite run_bind_Done;
        [|apply run_addUse; [assumption|apply key_prefix_ok_nonempty; assumption]]; reflexivity].
      fold k. unfold int_add. rewrite wrap_int_id by lia.
      destruct (IH (set_uses (<[k := uses_of lb k + 1]> (resourceUses lb)) lb))
        as (lb' & Hrun & Hf' & Hw' & Hu').
      * exact Hfree.
      * exact Hwait.
      * rewrite uses_of_insert_eq. lia.
      * rewrite uses_of_insert_eq. lia.
      * exists lb'. rewrite Hrun. repeat split; auto.
        rewrite Hu', uses_of_insert_eq. lia.
    + destruct c as [key|[p|]|key cnt|key|peer]; simpl in Hm; try contradiction.
      * erewrite run_bind_Done; [|cbn [call_prog]; erewrite run_bind_Done;
          [|apply run_getKeyUses, lock_free_readable; assumption]; reflexivity].
        apply IH; auto.
      * destruct Hm as [Hne Hp].
        erewrite run_bind_Done; [|cbn [call_prog]; erewrite run_bind_Done;
          [|apply run_addUse; [assumption|apply key_prefix_ok_nonempty; assumption]]; reflexivity].
        destruct (IH (set_uses (<[Key p := int_add (uses_of lb (Key p)) 1]> (resourceUses lb)) lb))
          as (lb' & Hrun & Hf' & Hw' & Hu'); auto.
        -- rewrite uses_of_insert_ne by assumption. exact Hlo.
        -- rewrite uses_of_insert_ne by assumption. exact Hhi.
        -- exists lb'. rewrite Hrun. repeat split; auto.
           rewrite Hu', uses_of_insert_ne by assumption. reflexivity.
      * erewrite run_bind_Done; [|cbn [call_prog]; apply run_initKey; auto].
        destruct (IH (set_uses (<[key := cnt]> (resourceUses lb)) lb))
          as (lb' & Hrun & Hf' & Hw' & Hu'); auto.
        -- rewrite uses_of_insert_ne by assumption. exact Hlo.
        -- rewrite uses_of_insert_ne by assumption. exact Hhi.
        -- exists lb'. rewrite Hrun. repeat split; auto.
           rewrite Hu', uses_of_insert_ne by assumption. reflexivity.
Qed.

Lemma run_getAllUses lb ps :
  writer (lock lb) = false ->
  run (getAllUses (Some <$> ps)) lb = Done (count_of lb <$> ps) lb.
Proof.
  intros Hw. induction ps as [|p ps IH]; [reflexivity|].
  cbn [fmap list_fmap getAllUses getUses].
  erewrite run_bind_Done by (apply run_getKeyUses; assumption).
  erewrite run_bind_Done by exact IH. reflexivity.
Qed.

Lemma run_getAllUses_inv lb rs rcs lb' :
  writer (lock lb) = false ->
  run (getAllUses rs) lb = Done rcs lb' ->
  lb' = lb ∧ ∃ ps, rs = Some <$> ps ∧ rcs = count_of lb <$> ps.
Proof.
  intros Hw. revert rcs. induction rs as [|[p|] rs IH]; intros rcs H.
  - simpl in H. injection H as <- <-. split; [reflexivity|]. exists []. split; reflexivity.
  - cbn [getAllUses getUses] in H.
    erewrite run_bind_Done in H by (apply run_getKeyUses; assumption).
    apply run_bind_inv in H as (rcs1 & lb1 & H1 & H2).
    simpl in H2. injection H2 as <- <-.
    destruct (IH _ H1) as (-> & ps & -> & ->).
    split; [reflexivity|]. exists (p :: ps). split; reflexivity.
  - simpl in H. discriminate.
Qed.

Lemma run_toLBPeers_state rs lb l lb' :
  run (toLBPeers rs) lb = Done l lb' -> lb' = lb.
Proof.
  revert l. induction rs as [|[p|] rs IH]; simpl; intros l H.
  - injection H as _ <-. reflexivity.
  - apply run_bind_inv in H as (l1 & lb1 & H1 & H2). simpl in H2. injection H2 as _ <-.
    eauto.
  - discriminate.
Qed.

Lemma snapshot_state sort_Slice bin lb snapshot lb' :
  writer (lock lb) = false ->
  run (peerBinToPeerList sort_Slice bin) lb = Done snapshot lb' -> lb' = lb.
Proof.
  intros Hw. unfold peerBinToPeerList. destruct (Size bin <? 0); [discriminate|].
  destruct (PeerIterator _ _ _) as [[b [rs n]]|]; [|discriminate].
  unfold resourcesToLbPeers, sortResources. intros H.
  apply run_bind_inv in H as (sorted & lb1 & H1 & H2).
  apply run_bind_inv in H1 as (rcs & lb2 & H1 & H3). simpl in H3. injection H3 as _ <-.
  apply run_getAllUses_inv in H1 as [-> _]; [|assumption].
  eapply run_toLBPeers_state; eauto.
Qed.


(** ** The short-slice path of [sort.Slice] sorts

    For a [less] that compares an integer key, the insertion sort leaves the
    slice sorted by that key and only ever swaps elements. *)

Section GoSortCorrect.
Context {A : Type} (f : A -> Z).
Let less (a b : A) : bool := f a <? f b.
Let R (a b : A) : Prop := f a <= f b.

Lemma Swap_Permutation (data : list A) i j : GoSort.Swap data i j ≡ₚ data.
Proof.
  unfold GoSort.Swap. destruct (data !! i) as [x|] eqn:Hi; [|reflexivity].
  destruct (data !! j) as [y|] eqn:Hj; [|reflexivity].
  eapply Permutation_insert_swap; eauto.
Qed.

Lemma Swap_length (data : list A) i j : length (GoSort.Swap data i j) = length data.
Proof. apply Permutation_length, Swap_Permutation. Qed.

Lemma Swap_adjacent (l1 : list A) y x l2 :
  GoSort.Swap (l1 ++ y :: x :: l2) (S (length l1)) (length l1) = l1 ++ x :: y :: l2.
Proof.
  unfold GoSort.Swap.
  rewrite (lookup_app_r l1) by lia. replace (S (length l1) - length l1)%nat with 1%nat by lia.
  rewrite list_lookup_middle by reflexivity. simpl.
  rewrite (insert_app_r_alt l1 _ (length l1)) by lia.
  rewrite (insert_app_r_alt l1 _ (S (length l1))) by (rewrite ?length_insert; lia).
  rewrite Nat.sub_diag. replace (S (length l1) - length l1)%nat with 1%nat by lia.
  reflexivity.
Qed.

Lemma Less_adjacent (l1 : list A) y x l2 :
  GoSort.Less less (l1 ++ y :: x :: l2) (S (length l1)) (length l1) = less x y.
Proof.
  unfold GoSort.Less.
  rewrite (lookup_app_r l1) by lia. replace (S (length l1) - length l1)%nat with 1%nat by lia.
  rewrite list_lookup_middle by reflexivity. reflexivity.
Qed.

Lemma insertion_inner_spec (l1 : list A) :
  ∀ x l2, StronglySorted R l1 ->
    ∃ l1a l1b, l1 = l1a ++ l1b ∧
      GoSort.insertion_inner less (l1 ++ x :: l2) 0 (length l1) = l1a ++ x :: l1b ++ l2 ∧
      StronglySorted R (l1a ++ x :: l1b).
Proof.
  induction l1 as [|y l1 IH] using rev_ind; intros x l2 Hs.
  - exists [], []. repeat split. simpl. repeat constructor.
  - rewrite length_app. simpl. replace (length l1 + 1)%nat with (S (length l1)) by lia.
    cbn [GoSort.insertion_inner]. rewrite <- app_assoc. cbn [app].
    rewrite Less_adjacent. cbn [andb Nat.ltb Nat.leb].
    apply StronglySorted_app in Hs as (Hle & Hs1 & _).
    unfold less at 1. destruct (Z.ltb_spec (f x) (f y)) as [Hlt|Hge].
    + rewrite Swap_adjacent.
      destruct (IH x (y :: l2) Hs1) as (a & b & -> & Hrun & Hsab).
      exists a, (b ++ [y]). split; [by rewrite app_assoc|]. split.
      * rewrite Hrun. rewrite <- !app_assoc. reflexivity.
      * change (a ++ x :: b ++ [y]) with (a ++ (x :: b) ++ [y]). rewrite app_assoc.
        apply StronglySorted_app_2; [|assumption|repeat constructor].
        intros z1 z2 Hz1 Hz2. apply list_elem_of_singleton in Hz2 as ->.
        apply elem_of_app in Hz1 as [Hz1|Hz1].
        -- apply Hle; [|apply list_elem_of_here]. apply elem_of_app; auto.
        -- apply elem_of_cons in Hz1 as [->|Hz1]; [unfold R; lia|].
           apply Hle; [|apply list_elem_of_here]. apply elem_of_app; auto.
    + exists (l1 ++ [y]), []. split; [by rewrite app_nil_r|]. split.
      * rewrite <- app_assoc. reflexivity.
      * apply StronglySorted_app_2; [|apply StronglySorted_app_2; auto; repeat constructor
                                      |repeat constructor].
        -- intros z1 z2 Hz1 Hz2. apply list_elem_of_singleton in Hz2 as ->.
           apply elem_of_app in Hz1 as [Hz1|Hz1].
           ++ specialize (Hle z1 y Hz1 (list_elem_of_here _ _)). unfold R in *. lia.
           ++ apply list_elem_of_singleton in Hz1 as ->. unfold R. lia.
Qed.

Lemma insertion_outer_spec (rest : list A) :
  ∀ pre, StronglySorted R pre ->
    StronglySorted R (GoSort.insertion_outer less (pre ++ rest) 0 (length pre) (length rest)) ∧
    GoSort.insertion_outer less (pre ++ rest) 0 (length pre) (length rest) ≡ₚ pre ++ rest.
Proof.
  induction rest as [|x rest IH]; intros pre Hs.
  - simpl. rewrite app_nil_r. auto.
  - cbn [length GoSort.insertion_outer].
    destruct (insertion_inner_spec pre x rest Hs) as (a & b & -> & -> & Hsab).
    replace (S (length (a ++ b))) with (length (a ++ x :: b))
      by (rewrite !length_app; simpl; lia).
    replace (a ++ x :: b ++ rest) with ((a ++ x :: b) ++ rest)
      by (rewrite <- app_assoc; reflexivity).
    destruct (IH _ Hsab) as [Hsorted Hperm]. split; [exact Hsorted|].
    rewrite Hperm. rewrite <- !app_assoc. simpl.
    apply Permutation_app_head. apply Permutation_middle.
Qed.

Lemma insertionSort_func_spec (data : list A) :
  StronglySorted R (GoSort.insertionSort_func less data 0 (length data)) ∧
  GoSort.insertionSort_func less data 0 (length data) ≡ₚ data.
Proof.
  unfold GoSort.insertionSort_func. destruct data as [|x rest].
  - simpl. split; constructor.
  - cbn [length Nat.add Nat.sub]. rewrite Nat.sub_0_r.
    apply (insertion_outer_spec rest [x]). repeat constructor.
Qed.

Lemma shell_pass_Permutation n : ∀ (data : list A) i, GoSort.shell_pass less data i n ≡ₚ data.
Proof.
  induction n as [|n IH]; intros data i; simpl; [reflexivity|].
  rewrite IH. destruct (GoSort.Less _ _ _ _); [apply Swap_Permutation|reflexivity].
Qed.

Lemma Slice_Permutation (x : list A) : GoSort.Slice less x ≡ₚ x.
Proof.
  unfold GoSort.Slice, GoSort.quickSort_func_short.
  destruct (1 <? length x - 0)%nat; [|reflexivity].
  set (data := GoSort.shell_pass less x (0 + 6) (length x - (0 + 6))).
  assert (Hd : data ≡ₚ x) by apply shell_pass_Permutation.
  rewrite <- (Permutation_length Hd). etrans; [apply insertionSort_func_spec|exact Hd].
Qed.

Lemma Slice_StronglySorted (x : list A) : StronglySorted R (GoSort.Slice less x).
Proof.
  unfold GoSort.Slice, GoSort.quickSort_func_short.
  destruct (Nat.ltb_spec 1 (length x - 0)) as [Hlt|Hge].
  - set (data := GoSort.shell_pass less x (0 + 6) (length x - (0 + 6))).
    assert (Hd : data ≡ₚ x) by apply shell_pass_Permutation.
    rewrite <- (Permutation_length Hd). apply insertionSort_func_spec.
  - destruct x as [|a [|b x]]; simpl in Hge; try lia; repeat constructor.
Qed.
End GoSortCorrect.

(** ** Interleavings of [waitKey] and [initKey] *)

(** When [waitKey] takes the lock first on a key without a count, it reaches
    its receive with the lock held. *)
Lemma wait_first_reaches key count :
  rtc step (newResourceLoadBalancer, [waitKey key; initKey key count])
    ({| resourceUses := ∅; waiting := {[ key := 0%nat ]};
        lock := {| writer := true; readers := 0%nat |}; next_chan := 1%nat |},
     [ do! act (ARecv (Some 0%nat)) in do! act (ADeleteWaiting key) in act AUnlock;
       initKey key count ]).
Proof.
  eapply rtc_l. { eapply (step_local _ _ 0%nat); [reflexivity | reflexivity]. }
  eapply rtc_l. { eapply (step_local _ _ 0%nat); [reflexivity | reflexivity]. }
  eapply rtc_l. { eapply (step_local _ _ 0%nat); [reflexivity | reflexivity]. }
  eapply rtc_l. { eapply (step_local _ _ 0%nat); [reflexivity | reflexivity]. }
  eapply rtc_l. { eapply (step_local _ _ 0%nat); [reflexivity | ]. simpl. reflexivity. }
  simpl. unfold set_waiting, set_lock; simpl. rewrite lookup_insert_eq.
  apply rtc_refl.
Qed.

(** There the receiver has no sender, and the sender-to-be waits for the lock. *)
Lemma wait_parked_stuck key count c' :
  ¬ step ({| resourceUses := ∅; waiting := {[ key := 0%nat ]};
             lock := {| writer := true; readers := 0%nat |}; next_chan := 1%nat |},
          [ do! act (ARecv (Some 0%nat)) in do! act (ADeleteWaiting key) in act AUnlock;
            initKey key count ]) c'.
Proof.
  intros H.
  inversion H as [lb pool i p p' lb' Hi Hs
                 |lb pool i j pr ps c pr' ps' Hij Hi Hj Hr Hsd]; subst.
  - destruct i as [|[|i]]; simpl in Hi; simplify_eq; simpl in Hs; discriminate.
  - destruct j as [|[|j]]; simpl in Hj; simplify_eq; simpl in Hsd; discriminate.
Qed.

(** When [initKey] runs first, both calls return. *)
Lemma init_first_completes key count :
  rtc step (newResourceLoadBalancer, [waitKey key; initKey key count])
    ({| resourceUses := {[ key := count ]}; waiting := ∅;
        lock := {| writer := false; readers := 0%nat |}; next_chan := 0%nat |},
     [Ret tt; Ret tt]).
Proof.
  eapply rtc_l. { eapply (step_local _ _ 1%nat); [reflexivity | reflexivity]. }
  eapply rtc_l. { eapply (step_local _ _ 1%nat); [reflexivity | reflexivity]. }
  eapply rtc_l. { eapply (step_local _ _ 1%nat); [reflexivity | reflexivity]. }
  simpl. rewrite lookup_empty.
  eapply rtc_l. { eapply (step_local _ _ 1%nat); [reflexivity | reflexivity]. }
  eapply rtc_l. { eapply (step_local _ _ 0%nat); [reflexivity | reflexivity]. }
  eapply rtc_l. { eapply (step_local _ _ 0%nat); [reflexivity | reflexivity]. }
  simpl. rewrite lookup_insert_eq.
  eapply rtc_l. { eapply (step_local _ _ 0%nat); [reflexivity | reflexivity]. }
  apply rtc_refl.
Qed.

(** C3 (the code deadlocks): a [waitKey] and an [initKey] on the same key,
    started on a fresh table, can reach a configuration in which neither call
    has returned and no goroutine can take a step: the waiter holds the lock
    while it waits for the signal that [initKey] can only send under the lock. *)
Theorem wait_init_deadlock key count :
  ∃ c, rtc step (newResourceLoadBalancer, [waitKey key; initKey key count]) c ∧
       deadlocked c ∧ Forall (fun p => finished p = false) c.2.
Proof.
  eexists. split; [apply wait_first_reaches|]. split; [split|].
  - intros c'. apply wait_parked_stuck.
  - eexists. split; [apply list_elem_of_here|]. reflexivity.
  - repeat constructor.
Qed.

(** ** The two maps never share a key *)

Lemma thread_step_prog_of t lb :
  thread_step (prog_of t) lb = prod_map prog_of id <$> tstep t lb.
Proof.
  destruct t; try reflexivity;
    cbn [prog_of call_prog getKeyUses addUse initKey waitKey removedPeer
         bind act thread_step tstep]; unfold on;
    match goal with |- context [exec ?e lb] => destruct (exec e lb) as [b lb'| |] end;
    try reflexivity.
  all: try (destruct b; reflexivity).
  - destruct r as [p|]; [|reflexivity]. destruct (key_prefix_ok (Key p)); reflexivity.
Qed.

Lemma at_recv_mode t c p : at_recv (prog_of t) = Some (c, p) -> mode t = WriteMode.
Proof. destruct t; simpl; intros H; try discriminate; try reflexivity. Qed.

Lemma at_send_mode t c p : at_send (prog_of t) = Some (c, p) -> mode t = WriteMode.
Proof. destruct t; simpl; intros H; try discriminate; try reflexivity. Qed.

Ltac step_cases t H :=
  destruct t; simpl in H; unfold on in H; simpl in H;
  repeat match type of H with
    | context [writer ?l] => destruct (writer l) eqn:?
    | context [readers ?l] => destruct (readers l) eqn:?
    end; try discriminate; injection H as <- <-.

Lemma tstep_outside t lb t' lb' :
  tstep t lb = Some (t', lb') -> mode t ≠ WriteMode ->
  resourceUses lb' = resourceUses lb ∧ waiting lb' = waiting lb ∧
  (writer (lock lb) = true -> writer (lock lb') = true) ∧
  (mode t' = WriteMode ->
     writer (lock lb') = true ∧ writer (lock lb) = false ∧
     registered t' = None ∧ registering t' = None).
Proof.
  intros H Hm. step_cases t H; simpl in *; try congruence;
    repeat split; try congruence; intros; try discriminate; try reflexivity.
  all: destruct r as [p|]; [destruct (key_prefix_ok (Key p))|]; reflexivity.
Qed.

Lemma tstep_inside_lock t lb t' lb' :
  tstep t lb = Some (t', lb') -> mode t = WriteMode -> writer (lock lb) = true ->
  mode t' = WriteMode -> lock lb' = lock lb.
Proof.
  intros H Hm Hw Hm'. step_cases t H; simpl in *; try congruence.
Qed.

Lemma no_waiter_view t lb key :
  writer_view t lb -> registered t = None -> waiting lb !! key = None.
Proof.
  intros [Hreg _] Hnone. destruct (waiting lb !! key) eqn:E; [|reflexivity].
  specialize (Hreg key (mk_is_Some _ _ E)). congruence.
Qed.


Lemma no_waiter_disjoint lb :
  (∀ key, waiting lb !! key = None) -> maps_disjoint lb.
Proof. intros H key [[c Hc] _]. rewrite H in Hc. discriminate. Qed.

Lemma tstep_inside t lb t' lb' :
  tstep t lb = Some (t', lb') -> mode t = WriteMode -> writer (lock lb) = true ->
  writer_view t lb -> maps_disjoint lb ->
  maps_disjoint lb' ∧
  (mode t' = WriteMode -> writer_view t' lb') ∧
  (mode t' ≠ WriteMode -> ∀ key, waiting lb' !! key = None).
Proof.
  intros H Hm Hw Hv Hd.
  assert (Hnone : registered t = None -> ∀ key, waiting lb !! key = None)
    by (intros Hr key; eapply no_waiter_view; eauto).
  step_cases t H; simpl in *; try congruence.
  all: split; [|split; [intros Hm'; simpl in Hm'; try discriminate
                       |intros Hn; simpl in Hn; try congruence]].
  all: try assumption.
  all: try (apply no_waiter_disjoint; simpl; auto; fail).
  all: try (apply Hnone; reflexivity).
  all: try (split; simpl; [intros key0 [c0 Hc0]; rewrite Hnone in Hc0 by reflexivity; discriminate
                          |intros key0 Hk0; discriminate]).
  - rewrite Hnone by reflexivity. split; simpl.
    + intros key0 [c0 Hc0]. rewrite Hnone in Hc0 by reflexivity. discriminate.
    + intros key0 Hk0. discriminate.
  - destruct (resourceUses lb !! key) eqn:Hu; split; simpl.
    + intros key0 [c0 Hc0]. rewrite Hnone in Hc0 by reflexivity. discriminate.
    + intros key0 Hk0. discriminate.
    + intros key0 [c0 Hc0]. rewrite Hnone in Hc0 by reflexivity. discriminate.
    + intros key0 Hk0. congruence.
  - intros key0 [[c0 Hc0] [v0 Hv0]]. simpl in *.
    destruct (decide (key = key0)) as [->|Hne].
    + destruct Hv as [_ Hv]. rewrite (Hv key0 eq_refl) in Hv0. discriminate.
    + rewrite lookup_insert_ne in Hc0 by assumption.
      rewrite Hnone in Hc0 by reflexivity. discriminate.
  - split; simpl.
    + intros key0 [c0 Hc0]. destruct (decide (key = key0)) as [->|Hne]; [reflexivity|].
      rewrite lookup_insert_ne in Hc0 by assumption.
      rewrite Hnone in Hc0 by reflexivity. discriminate.
    + intros key0 Hk0. discriminate.
  - intros key0 [[c0 Hc0] [v0 Hv0]]. simpl in *.
    apply lookup_delete_Some in Hc0 as [_ Hc0]. apply (Hd key0). split; eauto.
  - split; simpl.
    + intros key0 [c0 Hc0]. apply lookup_delete_Some in Hc0 as [Hne Hc0].
      destruct Hv as [Hv _]. specialize (Hv key0 (mk_is_Some _ _ Hc0)). simpl in Hv. congruence.
    + intros key0 Hk0. discriminate.
Qed.

Lemma writer_view_maps t lb lb' :
  resourceUses lb' = resourceUses lb -> waiting lb' = waiting lb ->
  writer_view t lb -> writer_view t lb'.
Proof. unfold writer_view. intros -> ->. auto. Qed.

Lemma maps_disjoint_maps lb lb' :
  resourceUses lb' = resourceUses lb -> waiting lb' = waiting lb ->
  maps_disjoint lb -> maps_disjoint lb'.
Proof. unfold maps_disjoint. intros -> ->. auto. Qed.

Lemma pool_inv_local lb ts i t t' lb' :
  pool_inv lb ts -> ts !! i = Some t -> tstep t lb = Some (t', lb') ->
  pool_inv lb' (<[i := t']> ts).
Proof.
  intros Hinv Hi Hstep.
  destruct (decide (mode t = WriteMode)) as [Hm|Hm].
  - pose proof (inv_locked _ _ Hinv i t Hi Hm) as Hw.
    pose proof (inv_view _ _ Hinv i t Hi Hm) as Hv.
    destruct (tstep_inside _ _ _ _ Hstep Hm Hw Hv (inv_disjoint _ _ Hinv))
      as (Hd' & Hv' & Hidle').
    assert (Honly : ∀ j tj, <[i := t']> ts !! j = Some tj -> mode tj = WriteMode ->
                            j = i ∧ tj = t').
    { intros j tj Hj Hmj. apply list_lookup_insert_Some in Hj as [(-> & -> & _)|[Hne Hj]].
      - split; reflexivity.
      - exfalso. apply Hne. eapply (inv_exclusive _ _ Hinv); eauto. }
    split.
    + intros j1 j2 t1 t2 H1 H2 Hm1 Hm2.
      destruct (Honly _ _ H1 Hm1) as [-> _]. destruct (Honly _ _ H2 Hm2) as [-> _].
      reflexivity.
    + intros j tj Hj Hmj. destruct (Honly _ _ Hj Hmj) as [-> ->].
      rewrite (tstep_inside_lock _ _ _ _ Hstep Hm Hw Hmj). exact Hw.
    + intros j tj Hj Hmj. destruct (Honly _ _ Hj Hmj) as [-> ->]. auto.
    + intros Hno. apply Hidle'. apply (Hno i).
      apply list_lookup_insert_eq. eapply lookup_lt_Some; eauto.
    + exact Hd'.
  - destruct (tstep_outside _ _ _ _ Hstep Hm) as (Hu & Hwt & Hkeep & Hacq).
    assert (Hfree : mode t' = WriteMode -> ∀ j tj, ts !! j = Some tj -> mode tj ≠ WriteMode).
    { intros Hm' j tj Hj Hmj. destruct (Hacq Hm') as (_ & Hf & _).
      rewrite (inv_locked _ _ Hinv j tj Hj Hmj) in Hf. discriminate. }
    split.
    + intros j1 j2 t1 t2 H1 H2 Hm1 Hm2.
      apply list_lookup_insert_Some in H1 as [(-> & -> & _)|[Hne1 H1]];
        apply list_lookup_insert_Some in H2 as [(-> & -> & _)|[Hne2 H2]].
      * reflexivity.
      * exfalso. eapply Hfree; eauto.
      * exfalso. eapply Hfree; eauto.
      * eapply (inv_exclusive _ _ Hinv); eauto.
    + intros j tj Hj Hmj.
      apply list_lookup_insert_Some in Hj as [(-> & -> & _)|[Hne Hj]].
      * apply Hacq; assumption.
      * apply Hkeep. eapply (inv_locked _ _ Hinv); eauto.
    + intros j tj Hj Hmj.
      apply list_lookup_insert_Some in Hj as [(-> & -> & _)|[Hne Hj]].
      * destruct (Hacq Hmj) as (_ & _ & Hr & Hg). split.
        -- intros key [c Hc]. rewrite Hwt in Hc.
           rewrite (inv_idle _ _ Hinv (Hfree Hmj)) in Hc. discriminate.
        -- intros key Hk. congruence.
      * eapply writer_view_maps; eauto. eapply (inv_view _ _ Hinv); eauto.
    + intros Hno key. rewrite Hwt. apply (inv_idle _ _ Hinv).
      intros j tj Hj. destruct (decide (j = i)) as [->|Hne].
      * congruence.
      * apply (Hno j). rewrite list_lookup_insert_ne by congruence. exact Hj.
    + eapply maps_disjoint_maps; eauto. apply (inv_disjoint _ _ Hinv).
Qed.

Lemma pool_inv_init calls : pool_inv newResourceLoadBalancer (init_state <$> calls).
Proof.
  assert (Hn : ∀ i t, (init_state <$> calls) !! i = Some t -> mode t ≠ WriteMode).
  { intros i t Hi. apply list_lookup_fmap_Some in Hi as (c & -> & _).
    destruct c; discriminate. }
  split.
  - intros i j ti tj Hi _ Hm. destruct (Hn _ _ Hi Hm).
  - intros i t Hi Hm. destruct (Hn _ _ Hi Hm).
  - intros i t Hi Hm. destruct (Hn _ _ Hi Hm).
  - intros _ key. apply lookup_empty.
  - intros key [[c Hc] _]. simpl in Hc. rewrite lookup_empty in Hc. discriminate.
Qed.

Lemma prog_of_init c : prog_of (init_state c) = call_prog c.
Proof. destruct c; reflexivity. Qed.

Lemma pool_inv_step lb ts c' :
  pool_inv lb ts -> step (lb, prog_of <$> ts) c' ->
  ∃ ts', c'.2 = prog_of <$> ts' ∧ pool_inv c'.1 ts'.
Proof.
  intros Hinv Hstep.
  inversion Hstep as [lb0 pool i p p' lb' Hi Hs|lb0 pool i j pr ps c pr' ps' Hij Hi Hj Hr Hsd];
    subst.
  - apply list_lookup_fmap_Some in Hi as (t & -> & Hi).
    rewrite thread_step_prog_of in Hs.
    destruct (tstep t lb) as [[t' lb'']|] eqn:Ht; simpl in Hs; [|discriminate].
    injection Hs as <- <-.
    exists (<[i := t']> ts). split.
    + simpl. rewrite list_fmap_insert. reflexivity.
    + simpl. eapply pool_inv_local; eauto.
  - apply list_lookup_fmap_Some in Hi as (ti & -> & Hi).
    apply list_lookup_fmap_Some in Hj as (tj & -> & Hj).
    exfalso. apply Hij. eapply (inv_exclusive _ _ Hinv); eauto using at_recv_mode, at_send_mode.
Qed.

Lemma pool_inv_reachable calls c :
  rtc step (newResourceLoadBalancer, call_prog <$> calls) c ->
  ∃ ts, c.2 = prog_of <$> ts ∧ pool_inv c.1 ts.
Proof.
  intros H.
  assert (Hgen : ∀ c0 c, rtc step c0 c ->
            (∃ ts, c0.2 = prog_of <$> ts ∧ pool_inv c0.1 ts) ->
            ∃ ts, c.2 = prog_of <$> ts ∧ pool_inv c.1 ts).
  { clear. induction 1 as [x|x y z Hxy _ IH]; [auto|].
    intros (ts & Hp & Hinv). apply IH. destruct x as [lb pool]. simpl in *. subst pool.
    eapply pool_inv_step; eauto. }
  apply (Hgen _ _ H). exists (init_state <$> calls). split.
  - simpl. rewrite <- list_fmap_compose. apply list_fmap_ext. intros _ x _. simpl.
    symmetry. apply prog_of_init.
  - apply pool_inv_init.
Qed.

(** C8: in every configuration that goroutines making calls of [getKeyUses],
    [addUse], [initKey], [waitKey] and [removedPeer] can reach from a fresh
    table, under any interleaving of their steps, no key is in both the wait
    map and the count map. *)
Theorem maps_disjoint_always calls c :
  rtc step (newResourceLoadBalancer, call_prog <$> calls) c ->
  ∀ key, ¬ (is_Some (waiting c.1 !! key) ∧ is_Some (resourceUses c.1 !! key)).
Proof.
  intros H. destruct (pool_inv_reachable _ _ H) as (ts & _ & Hinv).
  apply (inv_disjoint _ _ Hinv).
Qed.

Lemma maps_disjoint_always_witness :
  rtc step (newResourceLoadBalancer, call_prog <$> [CallWait "k"%string; CallInit "k"%string 3])
    ({| resourceUses := ∅; waiting := {[ "k"%string := 0%nat ]};
        lock := {| writer := true; readers := 0%nat |}; next_chan := 1%nat |},
     [ do! act (ARecv (Some 0%nat)) in do! act (ADeleteWaiting "k"%string) in act AUnlock;
       initKey "k"%string 3 ]) ∧
  ¬ (is_Some (({[ "k"%string := 0%nat ]} : gmap string chan) !! "k"%string) ∧
     is_Some ((∅ : gmap string Z) !! "k"%string)).
Proof.
  split.
  - apply wait_first_reaches.
  - exact (maps_disjoint_always
             [CallWait "k"%string; CallInit "k"%string 3] _
             (wait_first_reaches "k"%string 3) "k"%string).
Defined.

(** ** A removal never returns *)

(** Every step of a pool that satisfies the invariant is the step of one
    goroutine from its control point. *)
Lemma pool_step_inv lb ts c' :
  pool_inv lb ts -> step (lb, prog_of <$> ts) c' ->
  ∃ j t t', ts !! j = Some t ∧ tstep t lb = Some (t', c'.1) ∧
            c'.2 = prog_of <$> <[j := t']> ts.
Proof.
  intros Hinv Hstep.
  inversion Hstep as [lb0 pool i p p' lb' Hi Hs|lb0 pool i j pr ps c pr' ps' Hij Hi Hj Hr Hsd];
    subst.
  - apply list_lookup_fmap_Some in Hi as (t & -> & Hi).
    rewrite thread_step_prog_of in Hs.
    destruct (tstep t lb) as [[t' lb'']|] eqn:Ht; simpl in Hs; [|discriminate].
    injection Hs as <- <-.
    exists i, t, t'. split; [exact Hi|]. split; [exact Ht|].
    simpl. rewrite list_fmap_insert. reflexivity.
  - apply list_lookup_fmap_Some in Hi as (ti & -> & Hi).
    apply list_lookup_fmap_Some in Hj as (tj & -> & Hj).
    exfalso. apply Hij. eapply (inv_exclusive _ _ Hinv); eauto using at_recv_mode, at_send_mode.
Qed.

Lemma in_remove_step lb ts i t t' lb' :
  pool_inv lb ts -> ts !! i = Some t -> in_remove t ->
  tstep t lb = Some (t', lb') -> in_remove t'.
Proof.
  intros Hinv Hi Hrem Hstep. destruct t; try contradiction; simpl in Hstep; unfold on in Hstep.
  - destruct (exec ALock lb); [|discriminate..]. injection Hstep as <- _. exact I.
  - simpl in Hstep. injection Hstep as <- _. exact I.
  - pose proof (inv_locked _ _ Hinv i TR2 Hi eq_refl) as Hw.
    simpl in Hstep. rewrite Hw in Hstep. discriminate.
Qed.

Lemma in_remove_unfinished t : in_remove t -> finished (prog_of t) = false.
Proof. destruct t; try contradiction; reflexivity. Qed.

(** A goroutine that calls [removedPeer] never returns from it, whatever the
    other goroutines do. *)
Lemma removedPeer_never_returns calls i peer c :
  calls !! i = Some (CallRemove peer) ->
  rtc step (newResourceLoadBalancer, call_prog <$> calls) c ->
  ∃ p, c.2 !! i = Some p ∧ finished p = false.
Proof.
  intros Hcall H.
  assert (Hgen : ∀ c0 c, rtc step c0 c ->
            (∃ ts, c0.2 = prog_of <$> ts ∧ pool_inv c0.1 ts ∧
                   ∃ t, ts !! i = Some t ∧ in_remove t) ->
            ∃ ts, c.2 = prog_of <$> ts ∧ pool_inv c.1 ts ∧
                  ∃ t, ts !! i = Some t ∧ in_remove t).
  { clear. induction 1 as [x|x y z Hxy _ IH]; [auto|].
    intros (ts & Hp & Hinv & t & Hi & Hrem). apply IH.
    destruct x as [lb pool]. simpl in *. subst pool.
    destruct (pool_step_inv _ _ _ Hinv Hxy) as (j & tj & tj' & Hj & Hstep & Hpool).
    exists (<[j := tj']> ts). split; [exact Hpool|]. split.
    - eapply pool_inv_local; eauto.
    - destruct (decide (j = i)) as [->|Hne].
      + exists tj'. split.
        * apply list_lookup_insert_eq. eapply lookup_lt_Some; eauto.
        * rewrite Hi in Hj. injection Hj as <-. eapply in_remove_step; eauto.
      + exists t. split; [|exact Hrem]. rewrite list_lookup_insert_ne by exact Hne. exact Hi. }
  destruct (Hgen _ _ H) as (ts & Hp & _ & t & Hi & Hrem).
  - exists (init_state <$> calls). split; [|split].
    + simpl. rewrite <- list_fmap_compose. apply list_fmap_ext. intros _ x _. simpl.
      symmetry. apply prog_of_init.
    + apply pool_inv_init.
    + exists (TR0 peer). split; [|exact I]. rewrite list_lookup_fmap, Hcall. reflexivity.
  - exists (prog_of t). split.
    + rewrite Hp, list_lookup_fmap, Hi. reflexivity.
    + apply in_remove_unfinished, Hrem.
Qed.

(** ** Use-callbacks *)

Section AccountingClaim.

Variable sort_Slice :
  (ResourceCount -> ResourceCount -> bool) -> list ResourceCount -> list ResourceCount.

(** C5, as amended: let [e] be an entry of a snapshot taken from a table
    whose lock is free and that has no waiter, and let its peer have a
    non-empty address.  If the callback of [e] is invoked [k] times, with
    reads and with uses and initialisations of other keys in between, and
    the count of [e] plus [k] does not exceed the largest [int], then the
    calls return and the count of [e] is the count at the snapshot plus
    [k].  And [addUse] on a key without a count stores 1 and returns 1. *)
Theorem use_callback_accounting bin lb snapshot lb' e ms :
  lock_free lb -> (∀ key, waiting lb !! key = None) ->
  run (peerBinToPeerList sort_Slice bin) lb = Done snapshot lb' ->
  e ∈ snapshot ->
  Address (LBPeer_Peer e) ≠ [] ->
  Forall (elsewhere (Key (LBPeer_Peer e))) ms ->
  int_min <= uses_of lb (Key (LBPeer_Peer e)) ->
  uses_of lb (Key (LBPeer_Peer e)) + invocations ms <= int_max ->
  (∃ lb'',
     run (do! sequence (moment_prog e <$> ms) in getKeyUses (Key (LBPeer_Peer e))) lb' =
       Done (uses_of lb (Key (LBPeer_Peer e)) + invocations ms) lb'') ∧
  (∀ lb0 p, lock_free lb0 -> Address p ≠ [] -> resourceUses lb0 !! Key p = None ->
     ∃ lb1, run (addUse (Some p)) lb0 = Done 1 lb1 ∧ resourceUses lb1 !! Key p = Some 1).
Proof.
  intros Hfree Hwait Hsnap He Haddr Hms Hlo Hhi. split.
  - assert (lb' = lb) as -> by (eapply snapshot_state; eauto using lock_free_readable).
    destruct (run_moments e ms (snapshot_Use _ _ _ _ _ Hsnap e He) Haddr Hms lb
                Hfree Hwait Hlo Hhi) as (lb'' & Hrun & Hf & _ & Hu).
    exists lb''. erewrite run_bind_Done by exact Hrun.
    rewrite run_getKeyUses by (apply lock_free_readable; assumption).
    rewrite Hu. reflexivity.
  - intros lb0 p Hf Hp Habs. eexists. split.
    + rewrite run_addUse by (auto using key_prefix_ok_nonempty).
      unfold uses_of. rewrite Habs. reflexivity.
    + simpl. apply lookup_insert_eq.
Qed.

End AccountingClaim.

Lemma use_callback_accounting_witness :
  ∃ lb'',
    run (do! sequence (moment_prog (entry_of peerA) <$>
                         [UseIt; Other (CallGet (Key peerB)); UseIt;
                          Other (CallAdd (Some peerB)); Other (CallInit (Key peerC) 7);
                          UseIt])
         in getKeyUses (Key peerA)) table_AB = Done (5 + 3) lb''.
Proof.
  refine (proj1 (use_callback_accounting (GoSort.Slice)
                   (bin_of 2 [peerA; peerB]) table_AB [entry_of peerB; entry_of peerA]
                   table_AB (entry_of peerA)
                   [UseIt; Other (CallGet (Key peerB)); UseIt;
                    Other (CallAdd (Some peerB)); Other (CallInit (Key peerC) 7); UseIt]
                   _ _ _ _ _ _ _ _)).
  - reflexivity.
  - intros key. apply lookup_empty.
  - reflexivity.
  - apply list_elem_of_further, list_elem_of_here.
  - discriminate.
  - repeat constructor; simpl; try discriminate.
  - vm_compute. discriminate.
  - vm_compute. discriminate.
Defined.

(** C5, as stated, fails where the count reaches the largest [int]: one more
    invocation of the callback wraps the count around to the smallest. *)
Lemma use_callback_overflow :
  run (peerBinToPeerList GoSort.Slice (bin_of 2 [peerA])) table_full
    = Done [entry_of peerA] table_full ∧
  returned (run (do! Use (entry_of peerA) in getKeyUses (Key peerA)) table_full)
    = Some int_min ∧
  returned (run (do! Use (entry_of peerA) in getKeyUses (Key peerA)) table_full)
    ≠ Some (uses_of table_full (Key peerA) + 1).
Proof.
  split; [|split].
  - reflexivity.
  - vm_compute. reflexivity.
  - vm_compute. discriminate.
Qed.

(** ** Initialising the count of a new peer *)

(** C1 (the code departs from the claim): with A, B, C at proximity order 2
    holding 5, 2 and 7, adding D at proximity order 2 under the least-used
    strategy leaves D with count 0, although the policy asked about D's own
    bin answers 2: [addedPeer] hands the constant 0 to the policy where its
    comment says the proximity order of the new peer is passed. *)
Theorem least_used_init_asks_bin_zero :
  returned (run (do! addedPeer (NewKademliaLoadBalancer GoSort.Slice overlay_po2 false) peerD 2
                 in do! waitKey (Key peerD) in getKeyUses (Key peerD)) table_527) = Some 0 ∧
  returned (run (leastUsedCountInBin GoSort.Slice overlay_po2 peerD 2) table_527) = Some 2 ∧
  (∀ klb peer po po', addedPeer klb peer po = addedPeer klb peer po').
Proof.
  split; [|split].
  - vm_compute. reflexivity.
  - vm_compute. reflexivity.
  - reflexivity.
Qed.

(** C6 (the code departs from the claim): after Added(A) with count 0 and four
    invocations of A's callback, [removedPeer] deletes the count and then
    parks on its deferred second [Lock] with the lock held; the second
    Added(A) and the read of A's count park on the lock in turn, so the read
    never returns 0.  Under any interleaving with other calls, a goroutine
    that has called [removedPeer] never returns from it. *)
Theorem readd_after_remove_blocks :
  let klb := NewKademliaLoadBalancer GoSort.Slice overlay_A false in
  run (do! addedPeer klb peerA 2 in
       do! Use (entry_of peerA) in do! Use (entry_of peerA) in
       do! Use (entry_of peerA) in do! Use (entry_of peerA) in
       getKeyUses (Key peerA)) newResourceLoadBalancer
    = Done 4 (table_of [(Key peerA, 4)]) ∧
  run (removedPeer peerA) (table_of [(Key peerA, 4)]) = Blocked table_stuck ∧
  run (addedPeer klb peerA 2) table_stuck = Blocked table_stuck ∧
  run (getKeyUses (Key peerA)) table_stuck = Blocked table_stuck ∧
  ∀ calls i peer c,
    calls !! i = Some (CallRemove peer) ->
    rtc step (newResourceLoadBalancer, call_prog <$> calls) c ->
    ∃ p, c.2 !! i = Some p ∧ finished p = false.
Proof.
  intros klb.
  split; [vm_compute; reflexivity|].
  split; [vm_compute; reflexivity|].
  split; [vm_compute; reflexivity|].
  split; [vm_compute; reflexivity|].
  apply removedPeer_never_returns.
Qed.

Lemma run_mostSimilar_loop lb newPeer conns count :
  writer (lock lb) = false ->
  (∀ c, c ∈ conns -> Address c.1 ≠ []) ->
  run (mostSimilar_loop conns newPeer count) lb =
    Done (match first_other newPeer conns with
          | Some (q, _) => uses_of lb (Key q)
          | None => count
          end) lb.
Proof.
  intros Hw. unfold first_other. induction conns as [|[peer po] conns IH]; intros Haddr.
  - reflexivity.
  - cbn [mostSimilar_loop]. rewrite filter_cons. cbn [fst].
    destruct (Nat.eqb_spec (ptr peer) (ptr newPeer)) as [Heq|Hne]; cbn [negb].
    + rewrite decide_False by (intros H; apply H; exact Heq).
      apply IH. intros c Hc. apply Haddr. apply list_elem_of_further, Hc.
    + rewrite decide_True by exact Hne. cbn [head].
      erewrite run_bind_Done by (apply run_getKeyUses; assumption).
      rewrite (key_prefix_ok_nonempty peer); [reflexivity|].
      apply (Haddr (peer, po)), list_elem_of_here.
Qed.

Section MostSimilarClaim.

Variable sort_Slice :
  (ResourceCount -> ResourceCount -> bool) -> list ResourceCount -> list ResourceCount.


End MostSimilarClaim.


(** ** The listeners *)

Lemma listenNewPeers_app klb signals bad rest lb :
  Forall is_signal signals -> not_a_signal bad ->
  run (listenNewPeers klb (signals ++ bad :: rest)) lb =
  run (do! listenNewPeers klb signals in Ret Returned) lb.
Proof.
  intros Hs Hbad. revert lb. induction Hs as [|ev signals (peer & po & ->) _ IH]; intros lb.
  - simpl. destruct bad as [| |[p q|p|]]; try contradiction; reflexivity.
  - cbn [app listenNewPeers]. rewrite !run_bind.
    destruct (run (addedPeer klb peer po) lb) as [[] lb1|lb1|lb1]; simpl; [|reflexivity..].
    rewrite IH, run_bind. reflexivity.
Qed.

(** C9: when the added-peer listener, after any number of peer signals,
    finds its channel closed or receives a message that is not a
    [newPeerSignal], its loop returns: the table is left as the signals before
    that message left it, whatever events follow.  The removed-peer listener
    is not stopped by this: run afterwards it handles its events as it does
    after the signals alone, and given the same message it does not return
    but goes on to its next event (after the call of [removedPeer] when the
    message is a peer). *)
Theorem added_listener_returns klb signals bad rest lb :
  Forall is_signal signals -> not_a_signal bad ->
  run (listenNewPeers klb (signals ++ bad :: rest)) lb =
    run (do! listenNewPeers klb signals in Ret Returned) lb ∧
  run (listenNewPeers klb (bad :: rest)) lb = Done Returned lb ∧
  (∀ events,
     run (do! listenNewPeers klb (signals ++ bad :: rest) in listenOffPeers klb events) lb =
     run (do! listenNewPeers klb signals in listenOffPeers klb events) lb) ∧
  ∀ events,
    listenOffPeers klb (bad :: events) =
      match bad with
      | EvMsg (MsgPeer (Some peer)) => do! removedPeer peer in listenOffPeers klb events
      | _ => listenOffPeers klb events
      end.
Proof.
  intros Hs Hbad. split; [|split; [|split]].
  - apply listenNewPeers_app; assumption.
  - destruct bad as [| |[p q|p|]]; try contradiction; reflexivity.
  - intros events. rewrite !run_bind, (listenNewPeers_app klb signals bad rest lb Hs Hbad).
    rewrite run_bind. destruct (run (listenNewPeers klb signals) lb); reflexivity.
  - intros events. destruct bad as [| |[p q|[p|]|]]; try contradiction; reflexivity.
Qed.

Lemma added_listener_returns_witness :
  let klb := NewKademliaLoadBalancer GoSort.Slice overlay_near_D true in
  run (listenNewPeers klb
         ([EvMsg (MsgNewPeerSignal peerD 2)] ++
          EvMsg (MsgPeer (Some peerA)) :: [EvMsg (MsgNewPeerSignal peerB 2)])) table_529 =
    run (do! listenNewPeers klb [EvMsg (MsgNewPeerSignal peerD 2)] in Ret Returned) table_529.
Proof.
  refine (proj1 (added_listener_returns _ [EvMsg (MsgNewPeerSignal peerD 2)]
                   (EvMsg (MsgPeer (Some peerA))) [EvMsg (MsgNewPeerSignal peerB 2)]
                   table_529 _ _)).
  - repeat constructor. exists peerD, 2. reflexivity.
  - exact I.
Defined.

(** ** Filtered enumeration *)

Section FilteredClaim.

Variable sort_Slice :
  (ResourceCount -> ResourceCount -> bool) -> list ResourceCount -> list ResourceCount.

(** C4, as amended: when the overlay refuses the capability key (it offers
    no bin and returns an error), [EachBinFiltered] returns normally: the
    consumer is never called (what it captured is unchanged), the table is
    unchanged, and the error is dropped, so that the call ends exactly as it
    does on an overlay that accepts the key and has no bin for it. *)
Theorem filtered_failure_dropped {C : Type} klb base capKey err
    (consumeBin : LBBinConsumer C) (c : C) lb :
  EachBinDescFiltered (kademlia klb) base capKey 0 = ([], Some err) ->
  run (EachBinFiltered sort_Slice klb base capKey consumeBin c) lb = Done c lb ∧
  ∀ klb', EachBinDescFiltered (kademlia klb') base capKey 0 = ([], None) ->
    run (EachBinFiltered sort_Slice klb' base capKey consumeBin c) lb =
    run (EachBinFiltered sort_Slice klb base capKey consumeBin c) lb.
Proof.
  intros Herr. unfold EachBinFiltered. rewrite Herr. split; [reflexivity|].
  intros klb' Hok. rewrite Hok. reflexivity.
Qed.

End FilteredClaim.

Lemma filtered_failure_dropped_witness :
  run (EachBinFiltered GoSort.Slice (NewKademliaLoadBalancer GoSort.Slice overlay_refusing false)
         [x00] "bzz"%string collect []) table_AB = Done [] table_AB.
Proof.
  refine (proj1 (filtered_failure_dropped GoSort.Slice
                   (NewKademliaLoadBalancer GoSort.Slice overlay_refusing false)
                   [x00] "bzz"%string _ collect [] table_AB _)).
  reflexivity.
Defined.

(** C4, as stated, fails: nothing the call leaves tells a refusing overlay
    from an accepting one without bins. *)
Lemma filtered_failure_not_surfaced : ¬ failure_surfaced GoSort.Slice.
Proof.
  intros [observe H].
  pose proof (H overlay_refusing [x00] "bzz"%string table_AB) as Hrefused.
  pose proof (H overlay_accepting [x00] "bzz"%string table_AB) as Haccepted.
  vm_compute in Hrefused, Haccepted. congruence.
Qed.

(** ** Snapshots of bins *)

Lemma fill_slots (ps : list Peer) :
  ∀ pre : list Resource,
    iterate ps
      (fun entry '(resources, i) =>
         if (i <? length resources)%nat
         then Some (true, (<[i := Some entry]> resources, S i))
         else None)
      (pre ++ replicate (length ps) None, length pre)
    = Some (true, (pre ++ (Some <$> ps), (length pre + length ps)%nat)).
Proof.
  induction ps as [|p ps IH]; intros pre.
  - simpl. rewrite Nat.add_0_r. reflexivity.
  - cbn [iterate length replicate].
    assert (Hlt : (length pre <? length (pre ++ None :: replicate (length ps) None))%nat = true).
    { apply Nat.ltb_lt. rewrite length_app. simpl. lia. }
    rewrite Hlt.
    rewrite (insert_app_r_alt pre _ (length pre)) by reflexivity. rewrite Nat.sub_diag. cbn [insert list_insert].
    specialize (IH (pre ++ [Some p])).
    rewrite <- !app_assoc, length_app in IH. cbn [app length] in IH.
    rewrite Nat.add_1_r in IH.
    rewrite IH. cbn [fmap list_fmap]. rewrite Nat.add_succ_r. reflexivity.
Qed.

Lemma run_toLBPeers (qs : list Peer) lb :
  run (toLBPeers (Some <$> qs)) lb = Done (entry_of <$> qs) lb.
Proof.
  induction qs as [|q qs IH]; [reflexivity|].
  cbn [fmap list_fmap toLBPeers]. erewrite run_bind_Done by exact IH. reflexivity.
Qed.

Lemma resource_count_of lb (qs : list Peer) :
  resource <$> (count_of lb <$> qs) = Some <$> qs.
Proof. induction qs as [|q qs IH]; [reflexivity|]. simpl. f_equal. exact IH. Qed.

Lemma StronglySorted_lookup {A} (R : relation A) (l : list A) :
  StronglySorted R l ->
  ∀ i j x y, (i < j)%nat -> l !! i = Some x -> l !! j = Some y -> R x y.
Proof.
  induction 1 as [|a l _ IH Hall]; intros i j x y Hij Hi Hj.
  - rewrite lookup_nil in Hi. discriminate.
  - destruct j as [|j]; [lia|]. simpl in Hj. destruct i as [|i].
    + simpl in Hi. injection Hi as <-. rewrite Forall_forall in Hall.
      apply Hall. eapply list_elem_of_lookup_2; eauto.
    + simpl in Hi. apply (IH i j); auto. lia.
Qed.

Section SnapshotClaims.

Variable sort_Slice :
  (ResourceCount -> ResourceCount -> bool) -> list ResourceCount -> list ResourceCount.

(** The contract of [sort.Slice]: it rearranges the slice it is given ... *)
Hypothesis sort_Slice_perm : ∀ l, sort_Slice less_count l ≡ₚ l.

Lemma sorted_as_peers lb (ps : list Peer) :
  ∃ qs, sort_Slice less_count (count_of lb <$> ps) = count_of lb <$> qs ∧ qs ≡ₚ ps.
Proof.
  destruct (Permutation_map_inv (count_of lb) ps (sort_Slice_perm (count_of lb <$> ps)))
    as (qs & Heq & Hperm).
  exists qs. split; [exact Heq|]. symmetry. exact Hperm.
Qed.

Lemma run_peerBinToPeerList bin lb :
  writer (lock lb) = false -> well_sized bin ->
  ∃ qs, run (peerBinToPeerList sort_Slice bin) lb = Done (entry_of <$> qs) lb ∧
        sort_Slice less_count (count_of lb <$> entries bin) = count_of lb <$> qs ∧
        qs ≡ₚ entries bin.
Proof.
  intros Hw Hsize. unfold well_sized in Hsize.
  destruct (sorted_as_peers lb (entries bin)) as (qs & Hsort & Hperm).
  exists qs. split; [|split; assumption].
  unfold peerBinToPeerList, PeerIterator. rewrite Hsize.
  destruct (Z.ltb_spec (Z.of_nat (length (entries bin))) 0) as [Hneg|_]; [lia|].
  rewrite Nat2Z.id.
  pose proof (fill_slots (entries bin) []) as Hfill. cbn [app length] in Hfill.
  rewrite Hfill. unfold resourcesToLbPeers, sortResources.
  erewrite run_bind_Done; [apply run_toLBPeers|].
  erewrite run_bind_Done by (apply run_getAllUses; assumption).
  simpl. rewrite Hsort, resource_count_of. reflexivity.
Qed.

(** C10: for a bin whose announced size is the number of entries its
    iterator yields, read while no writer holds the lock, the snapshot is
    produced, its peers are a permutation of the entries of the bin (each
    entry once), and it is as long as the bin has entries. *)
Theorem snapshot_permutation bin lb :
  writer (lock lb) = false -> well_sized bin ->
  ∃ snapshot,
    run (peerBinToPeerList sort_Slice bin) lb = Done snapshot lb ∧
    LBPeer_Peer <$> snapshot ≡ₚ entries bin ∧
    length snapshot = length (entries bin).
Proof.
  intros Hw Hsize. destruct (run_peerBinToPeerList bin lb Hw Hsize) as (qs & Hrun & _ & Hperm).
  exists (entry_of <$> qs). split; [exact Hrun|].
  assert (Hpeers : LBPeer_Peer <$> (entry_of <$> qs) = qs).
  { rewrite <- list_fmap_compose. apply list_fmap_id. }
  split.
  - rewrite Hpeers. exact Hperm.
  - rewrite length_fmap. apply Permutation_length. exact Hperm.
Qed.

(** ... so that no element is less than one before it.  (Its documentation
    adds that the sort is not guaranteed to be stable.) *)
Hypothesis sort_Slice_sorted :
  ∀ l, StronglySorted (fun a b => count a <= count b) (sort_Slice less_count l).

Lemma snapshot_projects bin lb :
  writer (lock lb) = false -> well_sized bin ->
  ∃ snapshot,
    run (peerBinToPeerList sort_Slice bin) lb = Done snapshot lb ∧
    projects lb {| LBPeers := snapshot; LBBin_ProximityOrder := ProximityOrder bin |} bin.
Proof.
  intros Hw Hsize.
  destruct (run_peerBinToPeerList bin lb Hw Hsize) as (qs & Hrun & Hsort & Hperm).
  exists (entry_of <$> qs). split; [exact Hrun|]. split; [reflexivity|]. split.
  - simpl. pose proof (sort_Slice_sorted (count_of lb <$> entries bin)) as Hs.
    rewrite Hsort in Hs.
    intros i j ei ej Hij Hi Hj.
    apply list_lookup_fmap_Some in Hi as (qi & -> & Hi).
    apply list_lookup_fmap_Some in Hj as (qj & -> & Hj).
    apply (StronglySorted_lookup _ _ Hs i j (count_of lb qi) (count_of lb qj) Hij).
    + rewrite list_lookup_fmap, Hi. reflexivity.
    + rewrite list_lookup_fmap, Hj. reflexivity.
  - simpl. rewrite <- list_fmap_compose. rewrite list_fmap_id. exact Hperm.
Qed.

Lemma each_collect bins lb :
  writer (lock lb) = false -> Forall well_sized bins ->
  ∀ seen, ∃ out,
    run (each bins
           (fun peerBin c =>
              let! peers := peerBinToPeerList sort_Slice peerBin in
              collect {| LBPeers := peers; LBBin_ProximityOrder := ProximityOrder peerBin |} c)
           seen) lb = Done (seen ++ out) lb ∧
    Forall2 (projects lb) out bins.
Proof.
  intros Hw Hall. induction Hall as [|bin bins Hsize _ IH]; intros seen.
  - exists []. simpl. rewrite app_nil_r. split; [reflexivity|constructor].
  - destruct (snapshot_projects bin lb Hw Hsize) as (snapshot & Hrun & Hproj).
    destruct (IH (seen ++ [ {| LBPeers := snapshot;
                               LBBin_ProximityOrder := ProximityOrder bin |} ]))
      as (out & Hout & Hall2).
    eexists (_ :: out). split; [|constructor; [exact Hproj|exact Hall2]].
    cbn [each]. erewrite run_bind_Done.
    2: { erewrite run_bind_Done by exact Hrun. reflexivity. }
    cbn [fst snd]. rewrite Hout. rewrite <- app_assoc. reflexivity.
Qed.

(** C2, as amended: [EachBin], run while no writer holds the lock over bins
    of the announced sizes, hands the consumer one bin for each bin of the
    overlay, in the overlay's order; in each the entries are in ascending
    order of their counts (for all [i < j] the count of entry [i] is at most
    that of entry [j]) and are a permutation of the entries of the overlay's
    bin.  The same holds of the bin handed over at any later state of the
    table (the consumer may use peers between two bins).  Nothing is said of
    the order among entries of equal count. *)
Theorem each_bin_sorted klb base lb :
  writer (lock lb) = false ->
  Forall well_sized (EachBinDesc (kademlia klb) base 0) ->
  (∃ bins,
     run (EachBin sort_Slice klb base collect []) lb = Done bins lb ∧
     Forall2 (projects lb) bins (EachBinDesc (kademlia klb) base 0)) ∧
  (∀ bin lb', bin ∈ EachBinDesc (kademlia klb) base 0 -> writer (lock lb') = false ->
     ∃ peers,
       run (peerBinToPeerList sort_Slice bin) lb' = Done peers lb' ∧
       projects lb' {| LBPeers := peers; LBBin_ProximityOrder := ProximityOrder bin |} bin).
Proof.
  intros Hw Hall. split.
  - destruct (each_collect _ lb Hw Hall []) as (out & Hrun & Hall2).
    exists out. split; [exact Hrun|exact Hall2].
  - intros bin lb' Hbin Hw'. apply snapshot_projects; [exact Hw'|].
    rewrite Forall_forall in Hall. apply Hall, Hbin.
Qed.

End SnapshotClaims.

Lemma GoSort_Slice_perm l : GoSort.Slice less_count l ≡ₚ l.
Proof. exact (Slice_Permutation count l). Qed.

Lemma GoSort_Slice_sorted l :
  StronglySorted (fun a b => count a <= count b) (GoSort.Slice less_count l).
Proof. exact (Slice_StronglySorted count l). Qed.

Lemma snapshot_permutation_witness :
  ∃ snapshot,
    run (peerBinToPeerList GoSort.Slice (bin_of 2 [peerA; peerB; peerC; peerD])) table_527
      = Done snapshot table_527 ∧
    LBPeer_Peer <$> snapshot ≡ₚ entries (bin_of 2 [peerA; peerB; peerC; peerD]) ∧
    length snapshot = length (entries (bin_of 2 [peerA; peerB; peerC; peerD])).
Proof.
  refine (snapshot_permutation GoSort.Slice GoSort_Slice_perm
            (bin_of 2 [peerA; peerB; peerC; peerD]) table_527 _ _).
  - reflexivity.
  - reflexivity.
Defined.

Lemma each_bin_sorted_witness :
  ∃ bins,
    run (EachBin GoSort.Slice (NewKademliaLoadBalancer GoSort.Slice overlay_po2 false)
           [x00] collect []) table_527 = Done bins table_527 ∧
    Forall2 (projects table_527) bins
      (EachBinDesc (kademlia (NewKademliaLoadBalancer GoSort.Slice overlay_po2 false)) [x00] 0).
Proof.
  refine (proj1 (each_bin_sorted GoSort.Slice GoSort_Slice_perm GoSort_Slice_sorted
                   (NewKademliaLoadBalancer GoSort.Slice overlay_po2 false) [x00] table_527
                   _ _)).
  - reflexivity.
  - repeat constructor.
Defined.

(** C2, as stated, fails on ties: with Go 1.13's [sort.Slice], a bin that the
    overlay enumerates as A, B, C, D, E, F, G with counts 5, 5, 2, 5, 5, 5, 3
    is handed over as C, G, B, D, E, F, A: B stands before A although both
    have count 5 and the overlay lists A first. *)
Lemma equal_counts_reordered :
  run (EachBin GoSort.Slice (NewKademliaLoadBalancer GoSort.Slice overlay_seven false)
         [x00] collect []) table_seven
    = Done [ {| LBPeers := entry_of <$> [peerC; peerG; peerB; peerD; peerE; peerF; peerA];
                LBBin_ProximityOrder := 2 |} ] table_seven ∧
  ¬ ties_keep_order table_seven [peerA; peerB; peerC; peerD; peerE; peerF; peerG]
      (entry_of <$> [peerC; peerG; peerB; peerD; peerE; peerF; peerA]).
Proof.
  split; [reflexivity|].
  intros H.
  destruct (H 2%nat 6%nat (entry_of peerB) (entry_of peerA)) as (i' & j' & Hi & Hj & Hlt);
    [lia|reflexivity|reflexivity|vm_compute; reflexivity|].
  destruct j' as [|j']; [lia|].
  do 7 (destruct j' as [|j']; [discriminate Hj|]). discriminate Hj.
Qed.

(** * Further properties of the code *)

(** ** Keys *)

Lemma hex_byte_value (b : byte) :
  Byte.of_N (16 * hex_value (hex_char (N.shiftr (Byte.to_N b) 4))
             + hex_value (hex_char (N.land (Byte.to_N b) 15))) = Some b.
Proof. destruct b; vm_compute; reflexivity. Qed.

Lemma hex_Encode_inj (l1 l2 : list byte) : hex_Encode l1 = hex_Encode l2 -> l1 = l2.
Proof.
  revert l2. induction l1 as [|b1 l1 IH]; intros [|b2 l2] H; simpl in H;
    try discriminate; [reflexivity|].
  injection H as Hhi Hlo Hrest.
  pose proof (hex_byte_value b1) as H1. rewrite Hhi, Hlo, hex_byte_value in H1.
  injection H1 as ->. f_equal. apply IH, Hrest.
Qed.

Lemma hex_Encode_length (l : list byte) :
  String.length (hex_Encode l) = (2 * length l)%nat.
Proof. induction l as [|b l IH]; simpl; [reflexivity|]. rewrite IH. lia. Qed.

(** X1: two peers have the same key exactly when they have the same address,
    and the key of an address of [n] bytes has [2 + 2 n] characters. *)
Theorem Key_identifies_address (p q : Peer) :
  (Key p = Key q <-> Address p = Address q) ∧
  String.length (Key p) = (2 + 2 * length (Address p))%nat.
Proof.
  split; [split|].
  - unfold Key, hexutil_Encode. intros H. simpl in H. injection H as H.
    apply hex_Encode_inj, H.
  - unfold Key. intros ->. reflexivity.
  - unfold Key, hexutil_Encode.
    change (String.length ("0x" +:+ hex_Encode (Address p))%string)
      with (S (S (String.length (hex_Encode (Address p))))).
    rewrite hex_Encode_length. reflexivity.
Qed.

(** ** Debug functions *)

(** X2: [byteToBinary] always yields eight characters; [ParseInt] reads them
    back as the value of the byte without error, so that
    [stringBinaryToHex] of them is the key of the 32-byte address that
    starts with the byte and is zero elsewhere. *)
Theorem byteToBinary_round_trip (b : byte) :
  String.length (byteToBinary b) = 8%nat ∧
  ParseInt2 (byteToBinary b) = (Z.of_N (Byte.to_N b), NoError) ∧
  stringBinaryToHex (byteToBinary b) = hexutil_Encode (b :: replicate 31 x00).
Proof. destruct b; vm_compute; repeat split; reflexivity. Qed.

(** ** Calls on the table, one at a time *)

Lemma key_prefix_ok_empty p : Address p = [] -> key_prefix_ok (Key p) = false.
Proof. unfold Key. intros ->. reflexivity. Qed.

(** X3: a call of [getKeyUses], [addUse], [initKey], [waitKey] or
    [removedPeer] that returns leaves the lock and the wait map as it found
    them and changes the count of no key but its own; a call that panics
    leaves the whole table as it found it. *)
Theorem returned_call_keeps_table (c : table_call) lb :
  match run (call_prog c) lb with
  | Done _ lb' =>
      lock lb' = lock lb ∧ waiting lb' = waiting lb ∧
      ∀ key, call_key c ≠ Some key -> resourceUses lb' !! key = resourceUses lb !! key
  | Panicked lb' => lb' = lb
  | Blocked _ => True
  end.
Proof.
  destruct lb as [u w [wr rd] nc].
  destruct c as [key|[p|]|key cnt|key|peer]; cbn [call_prog call_key].
  - unfold getKeyUses. destruct wr; simpl; auto.
  - unfold addUse. destruct wr; [exact I|]. destruct rd; [|exact I].
    destruct (key_prefix_ok (Key p)) eqn:Hk; simpl; [|reflexivity].
    repeat split; auto. intros key Hne. apply lookup_insert_ne. congruence.
  - unfold addUse. destruct wr; [exact I|]. destruct rd; [reflexivity|exact I].
  - unfold initKey. destruct wr; [exact I|]. destruct rd; [|exact I].
    simpl. destruct (w !! key) eqn:Hw; simpl; [exact I|].
    repeat split; auto. intros key' Hne. apply lookup_insert_ne. congruence.
  - unfold waitKey. destruct wr; [exact I|]. destruct rd; [|exact I].
    simpl. destruct (u !! key) eqn:Hu; simpl; [auto|exact I].
  - unfold removedPeer. destruct wr; [exact I|]. destruct rd; exact I.
Qed.

(** X4: on a table with a free lock and no waiter for the key, [initKey]
    followed by [waitKey] and [getKeyUses] returns the count just set (the
    wait returns at once), and a second [initKey] makes the first forgotten. *)
Theorem init_then_wait_then_get lb key c0 count :
  lock_free lb -> waiting lb !! key = None ->
  run (do! initKey key count in do! waitKey key in getKeyUses key) lb =
    Done count (set_uses (<[key := count]> (resourceUses lb)) lb) ∧
  run (do! initKey key c0 in initKey key count) lb = run (initKey key count) lb.
Proof.
  intros Hfree Hwait. split.
  - erewrite run_bind_Done by (apply run_initKey; assumption).
    erewrite run_bind_Done.
    2: { eapply run_waitKey_present; [exact Hfree|]. simpl. apply lookup_insert_eq. }
    rewrite run_getKeyUses by (apply lock_free_readable; exact Hfree).
    rewrite uses_of_insert_eq. reflexivity.
  - erewrite run_bind_Done by (apply run_initKey; assumption).
    rewrite !run_initKey by assumption. unfold set_uses. simpl.
    rewrite insert_insert_eq. reflexivity.
Qed.

(** X5: [addUse] on the nil resource or on a peer whose address is empty
    (its key is too short for the [[:4]] of the log line) panics; the
    deferred [Unlock] has run, so the table is as before. *)
Theorem addUse_panics lb (r : Resource) :
  lock_free lb ->
  (r = None ∨ ∃ p, r = Some p ∧ Address p = []) ->
  run (addUse r) lb = Panicked lb.
Proof.
  destruct lb as [u w lk nc]. unfold lock_free. simpl. intros -> [->|(p & -> & Hp)].
  - reflexivity.
  - unfold addUse. rewrite (key_prefix_ok_empty p Hp). reflexivity.
Qed.

Lemma init_then_wait_then_get_witness :
  run (do! initKey (Key peerC) 7 in do! waitKey (Key peerC) in getKeyUses (Key peerC)) table_AB =
    Done 7 (set_uses (<[Key peerC := 7]> (resourceUses table_AB)) table_AB).
Proof.
  refine (proj1 (init_then_wait_then_get table_AB (Key peerC) 0 7 _ _)).
  - reflexivity.
  - apply lookup_empty.
Defined.

Lemma addUse_panics_witness :
  run (addUse (Some {| ptr := 9; Address := [] |})) table_AB = Panicked table_AB.
Proof.
  refine (addUse_panics table_AB (Some {| ptr := 9; Address := [] |}) _ _).
  - reflexivity.
  - right. eexists. split; reflexivity.
Defined.

(** ** Bins of the wrong size *)

Lemma fill_slots_short (ps : list Peer) :
  ∀ (pre : list Resource) (k : nat), (length ps <= k)%nat ->
    iterate ps
      (fun entry '(resources, i) =>
         if (i <? length resources)%nat
         then Some (true, (<[i := Some entry]> resources, S i))
         else None)
      (pre ++ replicate k None, length pre)
    = Some (true, (pre ++ (Some <$> ps) ++ replicate (k - length ps) None,
                   (length pre + length ps)%nat)).
Proof.
  induction ps as [|p ps IH]; intros pre k Hk.
  - simpl. rewrite Nat.sub_0_r, Nat.add_0_r. reflexivity.
  - destruct k as [|k]; [simpl in Hk; lia|]. cbn [iterate length replicate].
    assert (Hlt : (length pre <? length (pre ++ None :: replicate k None))%nat = true).
    { apply Nat.ltb_lt. rewrite length_app. simpl. lia. }
    rewrite Hlt.
    rewrite (insert_app_r_alt pre _ (length pre)) by reflexivity.
    rewrite Nat.sub_diag. cbn [insert list_insert].
    specialize (IH (pre ++ [Some p]) k ltac:(simpl in Hk; lia)).
    rewrite <- !app_assoc, length_app in IH. cbn [app length] in IH.
    rewrite Nat.add_1_r in IH.
    rewrite IH. cbn [fmap list_fmap]. rewrite Nat.add_succ_r. reflexivity.
Qed.

Lemma fill_slots_long (ps : list Peer) :
  ∀ (pre : list Resource) (k : nat), (k < length ps)%nat ->
    iterate ps
      (fun entry '(resources, i) =>
         if (i <? length resources)%nat
         then Some (true, (<[i := Some entry]> resources, S i))
         else None)
      (pre ++ replicate k None, length pre)
    = None.
Proof.
  induction ps as [|p ps IH]; intros pre k Hk; [simpl in Hk; lia|].
  destruct k as [|k]; cbn [iterate replicate].
  - rewrite app_nil_r, Nat.ltb_irrefl. reflexivity.
  - assert (Hlt : (length pre <? length (pre ++ None :: replicate k None))%nat = true).
    { apply Nat.ltb_lt. rewrite length_app. simpl. lia. }
    rewrite Hlt.
    rewrite (insert_app_r_alt pre _ (length pre)) by reflexivity.
    rewrite Nat.sub_diag. cbn [insert list_insert].
    specialize (IH (pre ++ [Some p]) k ltac:(simpl in Hk; lia)).
    rewrite <- !app_assoc, length_app in IH. cbn [app length] in IH.
    rewrite Nat.add_1_r in IH. rewrite IH. reflexivity.
Qed.

Lemma run_getAllUses_nil lb (ps : list Peer) (rest : list Resource) :
  writer (lock lb) = false ->
  run (getAllUses ((Some <$> ps) ++ None :: rest)) lb = Panicked lb.
Proof.
  intros Hw. induction ps as [|p ps IH]; [reflexivity|].
  cbn [fmap list_fmap app getAllUses getUses].
  erewrite run_bind_Done by (apply run_getKeyUses; assumption).
  erewrite run_bind_Panicked by exact IH. reflexivity.
Qed.

(** X6: when the size a bin announces is not the number of entries its
    iterator yields (or is negative), [peerBinToPeerList] panics, with the
    table as it was: too small a size overruns the slice, too large a size
    leaves nil slots that [getUses] dereferences. *)
Theorem snapshot_needs_right_size sort_Slice bin lb :
  writer (lock lb) = false -> ¬ well_sized bin ->
  run (peerBinToPeerList sort_Slice bin) lb = Panicked lb.
Proof.
  intros Hw Hsize. unfold well_sized in Hsize. unfold peerBinToPeerList, PeerIterator.
  destruct (Z.ltb_spec (Size bin) 0) as [Hneg|Hpos]; [reflexivity|].
  destruct (Nat.lt_ge_cases (Z.to_nat (Size bin)) (length (entries bin))) as [Hlt|Hge].
  - pose proof (fill_slots_long (entries bin) [] _ Hlt) as Hfill.
    cbn [app length] in Hfill. rewrite Hfill. reflexivity.
  - pose proof (fill_slots_short (entries bin) [] _ Hge) as Hfill.
    cbn [app length] in Hfill. rewrite Hfill.
    assert (Hmore : (0 < Z.to_nat (Size bin) - length (entries bin))%nat) by lia.
    destruct (Z.to_nat (Size bin) - length (entries bin))%nat as [|k] eqn:Hk; [lia|].
    cbn [replicate]. unfold resourcesToLbPeers, sortResources.
    erewrite run_bind_Panicked; [reflexivity|].
    erewrite run_bind_Panicked; [reflexivity|].
    apply run_getAllUses_nil. exact Hw.
Qed.

Lemma snapshot_needs_right_size_witness :
  run (peerBinToPeerList GoSort.Slice
         {| ProximityOrder := 2; Size := 1; entries := [peerA; peerB] |}) table_AB
    = Panicked table_AB.
Proof.
  refine (snapshot_needs_right_size GoSort.Slice
            {| ProximityOrder := 2; Size := 1; entries := [peerA; peerB] |} table_AB _ _).
  - reflexivity.
  - unfold well_sized. simpl. discriminate.
Defined.

(** ** The least-used policy and the enumerations *)

Lemma iterate_append (ps : list Peer) :
  ∀ r : list Resource,
    iterate ps (fun entry resources => Some (true, resources ++ [Some entry])) r
    = Some (true, r ++ (Some <$> ps)).
Proof.
  induction ps as [|p ps IH]; intros r; simpl.
  - rewrite app_nil_r. reflexivity.
  - rewrite IH, <- app_assoc. reflexivity.
Qed.

Lemma each_gather (bins : list PeerBin) (po : Z) lb :
  ∀ acc : list Resource,
    run (each bins
           (fun bin (resources : list Resource) =>
              if (ProximityOrder bin =? po)%Z then
                match
                  PeerIterator bin
                    (fun entry resources => Some (true, resources ++ [Some entry])) resources
                with
                | Some r => Ret r
                | None => Panic
                end
              else Ret (true, resources))
           acc) lb
    = Done (acc ++ (Some <$> flat_map entries
                               (filter (fun bin => ProximityOrder bin = po) bins))) lb.
Proof.
  induction bins as [|bin bins IH]; intros acc.
  - simpl. rewrite app_nil_r. reflexivity.
  - cbn [each]. rewrite filter_cons. unfold PeerIterator.
    destruct (Z.eqb_spec (ProximityOrder bin) po) as [Heq|Hne].
    + rewrite decide_True by exact Heq. rewrite iterate_append. cbn [bind fst snd].
      rewrite IH. cbn [flat_map]. rewrite fmap_app, app_assoc. reflexivity.
    + rewrite decide_False by exact Hne. cbn [bind fst snd]. apply IH.
Qed.

Section PolicyProperties.

Variable sort_Slice :
  (ResourceCount -> ResourceCount -> bool) -> list ResourceCount -> list ResourceCount.

Hypothesis sort_Slice_perm : ∀ l, sort_Slice less_count l ≡ₚ l.

Hypothesis sort_Slice_sorted :
  ∀ l, StronglySorted (fun a b => count a <= count b) (sort_Slice less_count l).

Lemma run_resourcesToLbPeers (ps : list Peer) lb :
  writer (lock lb) = false ->
  ∃ qs, run (resourcesToLbPeers sort_Slice (Some <$> ps)) lb = Done (entry_of <$> qs) lb ∧
        qs ≡ₚ ps ∧
        StronglySorted (fun a b => uses_of lb (Key a) <= uses_of lb (Key b)) qs.
Proof.
  intros Hw.
  destruct (sorted_as_peers sort_Slice sort_Slice_perm lb ps) as (qs & Hsort & Hperm).
  exists qs. split; [|split; [exact Hperm|]].
  - unfold resourcesToLbPeers, sortResources.
    erewrite run_bind_Done; [apply run_toLBPeers|].
    erewrite run_bind_Done by (apply run_getAllUses; assumption).
    simpl. rewrite Hsort, resource_count_of. reflexivity.
  - pose proof (sort_Slice_sorted (count_of lb <$> ps)) as Hs. rewrite Hsort in Hs.
    clear -Hs. induction qs as [|q qs IH]; [constructor|].
    cbn [fmap list_fmap] in Hs. apply StronglySorted_inv in Hs as [Hs Hall].
    constructor; [apply IH, Hs|].
    rewrite Forall_fmap in Hall. exact Hall.
Qed.

(** X7: [getPeersForPo], read while no writer holds the lock, returns the
    entries of the bins at that proximity order, each once, in ascending
    order of their counts, and leaves the table as it is; the sizes the bins
    announce play no part. *)
Theorem getPeersForPo_sorted kad base po lb :
  writer (lock lb) = false ->
  ∃ qs, run (getPeersForPo sort_Slice kad base po) lb = Done (entry_of <$> qs) lb ∧
        qs ≡ₚ peers_at kad base po ∧
        ascending lb (entry_of <$> qs).
Proof.
  intros Hw. destruct (run_resourcesToLbPeers (peers_at kad base po) lb Hw)
    as (qs & Hrun & Hperm & Hs).
  exists qs. split; [|split; [exact Hperm|]].
  - unfold getPeersForPo. erewrite run_bind_Done by apply each_gather.
    cbn [app]. exact Hrun.
  - intros i j ei ej Hij Hi Hj.
    apply list_lookup_fmap_Some in Hi as (qi & -> & Hi).
    apply list_lookup_fmap_Some in Hj as (qj & -> & Hj).
    apply (StronglySorted_lookup _ _ Hs i j qi qj Hij Hi Hj).
Qed.

Lemma run_leastUsed_loop (ex : Peer) lb (qs : list Peer) :
  writer (lock lb) = false ->
  (∀ q, q ∈ qs -> Address q ≠ []) ->
  run (leastUsed_loop (entry_of <$> qs) ex) lb =
    Done (match others ex qs with
          | [] => 0
          | q :: _ => uses_of lb (Key q)
          end) lb.
Proof.
  intros Hw. unfold others. induction qs as [|q qs IH]; intros Haddr; [reflexivity|].
  cbn [fmap list_fmap leastUsed_loop entry_of LBPeer_Peer]. rewrite filter_cons.
  destruct (String.eqb_spec (Key q) (Key ex)) as [Heq|Hne]; cbn [negb].
  - rewrite decide_False by (intros H; apply H, Heq).
    apply IH. intros q' Hq'. apply Haddr, list_elem_of_further, Hq'.
  - rewrite decide_True by exact Hne.
    erewrite run_bind_Done by (apply run_getKeyUses; assumption).
    rewrite key_prefix_ok_nonempty by (apply Haddr, list_elem_of_here). reflexivity.
Qed.

Lemma head_others_least (ex : Peer) lb (qs ps : list Peer) :
  qs ≡ₚ ps ->
  StronglySorted (fun a b => uses_of lb (Key a) <= uses_of lb (Key b)) qs ->
  least_count lb (others ex ps)
    (match others ex qs with
     | [] => 0
     | q :: _ => uses_of lb (Key q)
     end).
Proof.
  intros Hperm Hs. unfold others in *.
  assert (Hfp : filter (fun q => Key q ≠ Key ex) qs ≡ₚ filter (fun q => Key q ≠ Key ex) ps)
    by (rewrite Hperm; reflexivity).
  assert (Hfs : StronglySorted (fun a b => uses_of lb (Key a) <= uses_of lb (Key b))
                  (filter (fun q => Key q ≠ Key ex) qs)).
  { clear -Hs. induction Hs as [|q qs _ IH Hall]; [constructor|].
    rewrite filter_cons. destruct (decide (Key q ≠ Key ex)); [|exact IH].
    constructor; [exact IH|]. apply Forall_forall. intros x Hx.
    apply list_elem_of_filter in Hx as [_ Hx]. rewrite Forall_forall in Hall. auto. }
  destruct (filter (fun q => Key q ≠ Key ex) qs) as [|q fq] eqn:Hf.
  - left. split; [|reflexivity]. apply Permutation_nil_l in Hfp. symmetry. exact Hfp.
  - right. split.
    + exists q. split; [|reflexivity]. rewrite <- Hfp. apply list_elem_of_here.
    + intros q' Hq'. rewrite <- Hfp in Hq'.
      apply StronglySorted_inv in Hfs as [_ Hall]. rewrite Forall_forall in Hall.
      apply elem_of_cons in Hq' as [->|Hq']; [lia|auto].
Qed.

Lemma run_leastUsedCountInBin kad (excludePeer : Peer) po lb :
  writer (lock lb) = false ->
  (∀ q, q ∈ peers_at kad (BaseAddr kad) po -> Address q ≠ []) ->
  ∃ r, run (leastUsedCountInBin sort_Slice kad excludePeer po) lb = Done r lb ∧
       least_count lb (others excludePeer (peers_at kad (BaseAddr kad) po)) r.
Proof.
  intros Hw Haddr.
  destruct (run_resourcesToLbPeers (peers_at kad (BaseAddr kad) po) lb Hw)
    as (qs & Hrun & Hperm & Hs).
  eexists. split.
  - unfold leastUsedCountInBin, getPeersForPo. cbn zeta.
    erewrite run_bind_Done.
    2: { erewrite run_bind_Done by apply each_gather. cbn [app]. exact Hrun. }
    apply run_leastUsed_loop; [exact Hw|].
    intros q Hq. apply Haddr. rewrite <- Hperm. exact Hq.
  - apply head_others_least; assumption.
Qed.

(** X8: [leastUsedCountInBin], read while no writer holds the lock over
    peers with non-empty addresses, returns the least count among the peers
    at the proximity order asked for whose key is not the excluded peer's,
    and 0 when there is no such peer; the table is left as it is. *)
Theorem leastUsedCountInBin_least kad (excludePeer : Peer) po lb :
  writer (lock lb) = false ->
  (∀ q, q ∈ peers_at kad (BaseAddr kad) po -> Address q ≠ []) ->
  ∃ r, run (leastUsedCountInBin sort_Slice kad excludePeer po) lb = Done r lb ∧
       least_count lb (others excludePeer (peers_at kad (BaseAddr kad) po)) r.
Proof. apply run_leastUsedCountInBin. Qed.

(** X9: under the least-used strategy [addedPeer], run on a table with a
    free lock and no waiter for the new peer, stores for the new peer the
    least count among the other peers at proximity order 0, or 0 when there
    is none, whatever proximity order the event carries; no other count
    changes. *)
Theorem least_used_added_peer kad (peer : Peer) po lb :
  lock_free lb -> waiting lb !! Key peer = None ->
  Address peer ≠ [] ->
  (∀ q, q ∈ peers_at kad (BaseAddr kad) 0 -> Address q ≠ []) ->
  ∃ r, run (addedPeer (NewKademliaLoadBalancer sort_Slice kad false) peer po) lb =
         Done tt (set_uses (<[Key peer := r]> (resourceUses lb)) lb) ∧
       least_count lb (others peer (peers_at kad (BaseAddr kad) 0)) r.
Proof.
  intros Hfree Hwait Hpeer Haddr.
  destruct (run_leastUsedCountInBin kad peer 0 lb (lock_free_readable _ Hfree) Haddr)
    as (r & Hrun & Hleast).
  exists r. split; [|exact Hleast].
  unfold addedPeer. cbn [NewKademliaLoadBalancer initCountFunc].
  erewrite run_bind_Done by exact Hrun.
  rewrite key_prefix_ok_nonempty by exact Hpeer.
  apply run_initKey; assumption.
Qed.

Lemma each_collect_first (n : nat) lb (bins : list PeerBin) :
  writer (lock lb) = false ->
  ∀ seen : list LBBin,
    (length seen < n)%nat ->
    Forall well_sized (take (n - length seen) bins) ->
    ∃ out,
      run (each bins
             (fun peerBin c =>
                let! peers := peerBinToPeerList sort_Slice peerBin in
                collect_first n
                  {| LBPeers := peers; LBBin_ProximityOrder := ProximityOrder peerBin |} c)
             seen) lb = Done (seen ++ out) lb ∧
      Forall2 (projects lb) out (take (n - length seen) bins).
Proof.
  intros Hw. induction bins as [|bin bins IH]; intros seen Hlen Hall.
  - exists []. rewrite take_nil, app_nil_r. split; [reflexivity|constructor].
  - destruct (n - length seen)%nat as [|m] eqn:Hm; [lia|].
    cbn [take] in Hall |- *. apply Forall_cons in Hall as [Hsize Hall].
    destruct (snapshot_projects sort_Slice sort_Slice_perm sort_Slice_sorted bin lb Hw Hsize)
      as (snapshot & Hrun & Hproj).
    cbn [each]. erewrite run_bind_Done.
    2: { erewrite run_bind_Done by exact Hrun. reflexivity. }
    cbn [fst snd].
    destruct (Nat.ltb_spec (length seen + 1) n) as [Hlt|Hge].
    + destruct (IH (seen ++ [ {| LBPeers := snapshot;
                                 LBBin_ProximityOrder := ProximityOrder bin |} ]))
        as (out & Hout & Hall2).
      * rewrite length_app. simpl. lia.
      * rewrite length_app. simpl.
        replace (n - (length seen + 1))%nat with m by lia. exact Hall.
      * rewrite length_app in Hall2. simpl in Hall2.
        replace (n - (length seen + 1))%nat with m in Hall2 by lia.
        eexists (_ :: out). split; [|constructor; [exact Hproj|exact Hall2]].
        rewrite Hout, <- app_assoc. reflexivity.
    + assert (m = 0%nat) as -> by lia. rewrite take_0.
      eexists [_]. split; [reflexivity|]. constructor; [exact Hproj|constructor].
Qed.

(** X10: when the consumer returns false at the [n]-th bin, [EachBin] has
    handed over the first [n] bins of the overlay (each sorted by count) and
    nothing more: later bins are not read, so not even a bin of the wrong
    size among them can make the call panic. *)
Theorem each_bin_stops klb base (n : nat) lb :
  (0 < n)%nat ->
  writer (lock lb) = false ->
  Forall well_sized (take n (EachBinDesc (kademlia klb) base 0)) ->
  ∃ out,
    run (EachBin sort_Slice klb base (collect_first n) []) lb = Done out lb ∧
    Forall2 (projects lb) out (take n (EachBinDesc (kademlia klb) base 0)).
Proof.
  intros Hn Hw Hall.
  destruct (each_collect_first n lb (EachBinDesc (kademlia klb) base 0) Hw [])
    as (out & Hrun & Hall2).
  - simpl. exact Hn.
  - simpl. rewrite Nat.sub_0_r. exact Hall.
  - simpl in Hall2. rewrite Nat.sub_0_r in Hall2. exists out. split; assumption.
Qed.

(** X11: [EachBinFiltered] hands the consumer every bin the overlay offers
    for the capability, sorted by count and with the overlay's peers,
    whether or not the overlay returns an error afterwards. *)
Theorem each_bin_filtered_sorted klb base capKey bins err lb :
  EachBinDescFiltered (kademlia klb) base capKey 0 = (bins, err) ->
  writer (lock lb) = false ->
  Forall well_sized bins ->
  ∃ out,
    run (EachBinFiltered sort_Slice klb base capKey collect []) lb = Done out lb ∧
    Forall2 (projects lb) out bins.
Proof.
  intros Hoffer Hw Hall. unfold EachBinFiltered. rewrite Hoffer.
  destruct (each_collect sort_Slice sort_Slice_perm sort_Slice_sorted bins lb Hw Hall [])
    as (out & Hrun & Hall2).
  exists out. split; assumption.
Qed.

Lemma policy_reads kad (useMostSimilarInit : bool) peer po lb :
  addressed kad -> writer (lock lb) = false ->
  ∃ r, run (initCountFunc (NewKademliaLoadBalancer sort_Slice kad useMostSimilarInit) peer po) lb
       = Done r lb.
Proof.
  intros [Hbins Hconns] Hw. destruct useMostSimilarInit; cbn [NewKademliaLoadBalancer initCountFunc].
  - eexists. unfold mostSimilarPeerCount. apply run_mostSimilar_loop; [exact Hw|].
    intros c Hc. eapply Hconns, Hc.
  - destruct (run_leastUsedCountInBin kad peer po lb Hw) as (r & Hr & _); [|eauto].
    intros q Hq. unfold peers_at in Hq.
    apply list_elem_of_In, in_flat_map in Hq as (bin & Hbin & Hq).
    apply list_elem_of_In, list_elem_of_filter in Hbin as [_ Hbin].
    apply list_elem_of_In in Hq. eapply Hbins; eassumption.
Qed.

(** X12: the added-peer listener, started on a table with a free lock and
    no waiter over an overlay whose peers have addresses, handles every
    signal it receives before the quit signal and then returns: afterwards
    every signalled peer has a count, the counts of the other keys are as
    before, the lock is free and nobody waits. This holds for both
    strategies. *)
Theorem new_listener_registers kad (useMostSimilarInit : bool)
    (signals : list (Peer * Z)) rest lb :
  addressed kad ->
  lock_free lb -> (∀ key, waiting lb !! key = None) ->
  Forall (fun s => Address s.1 ≠ []) signals ->
  ∃ lb',
    run (listenNewPeers (NewKademliaLoadBalancer sort_Slice kad useMostSimilarInit)
           ((signal <$> signals) ++ EvQuit :: rest)) lb = Done Returned lb' ∧
    lock_free lb' ∧ waiting lb' = waiting lb ∧
    (∀ key, key ∈ (Key ∘ fst <$> signals) -> is_Some (resourceUses lb' !! key)) ∧
    (∀ key, key ∉ (Key ∘ fst <$> signals) ->
       resourceUses lb' !! key = resourceUses lb !! key).
Proof.
  intros Hkad Hfree Hwait Hsig. revert lb Hfree Hwait.
  induction Hsig as [|[peer po] signals Hpeer _ IH]; intros lb Hfree Hwait.
  - exists lb. repeat split; try reflexivity; try assumption.
    intros key Hkey. apply elem_of_nil in Hkey. contradiction.
  - destruct (policy_reads kad useMostSimilarInit peer 0 lb Hkad
                (lock_free_readable _ Hfree)) as (r & Hr).
    destruct (IH (set_uses (<[Key peer := r]> (resourceUses lb)) lb)) as
      (lb' & Hrun & Hfree' & Hwait' & Hin & Hout).
    + destruct lb; exact Hfree.
    + destruct lb; exact Hwait.
    + exists lb'. split; [|split; [exact Hfree'|split; [|split]]].
      * cbn [fmap list_fmap app signal fst snd listenNewPeers].
        erewrite run_bind_Done; [exact Hrun|].
        unfold addedPeer. erewrite run_bind_Done by exact Hr.
        rewrite key_prefix_ok_nonempty by exact Hpeer.
        apply run_initKey; [exact Hfree|apply Hwait].
      * rewrite Hwait'. destruct lb; reflexivity.
      * intros key Hkey. cbn [fmap list_fmap] in Hkey.
        destruct (decide (key ∈ (Key ∘ fst <$> signals))) as [Hlater|Hlater];
          [apply Hin, Hlater|].
        apply elem_of_cons in Hkey as [->|Hkey]; [|contradiction].
        rewrite (Hout _ Hlater). destruct lb; simpl. rewrite lookup_insert_eq. eauto.
      * intros key Hkey. cbn [fmap list_fmap] in Hkey.
        apply not_elem_of_cons in Hkey as [Hne Hkey].
        rewrite (Hout _ Hkey). destruct lb; simpl.
        apply lookup_insert_ne. simpl in Hne. congruence.
Qed.

End PolicyProperties.

Lemma getPeersForPo_sorted_witness :
  ∃ qs, run (getPeersForPo GoSort.Slice overlay_po2 [x00] 2) table_527
          = Done (entry_of <$> qs) table_527 ∧
        qs ≡ₚ peers_at overlay_po2 [x00] 2 ∧
        ascending table_527 (entry_of <$> qs).
Proof.
  apply (getPeersForPo_sorted GoSort.Slice GoSort_Slice_perm GoSort_Slice_sorted
           overlay_po2 [x00] 2 table_527).
  reflexivity.
Defined.

Lemma four_peers_addressed (q : Peer) :
  q ∈ [peerA; peerB; peerC; peerD] -> Address q ≠ [].
Proof.
  intros Hq. repeat (apply elem_of_cons in Hq as [->|Hq]; [discriminate|]).
  apply elem_of_nil in Hq. contradiction.
Qed.

Lemma leastUsedCountInBin_least_witness :
  ∃ r, run (leastUsedCountInBin GoSort.Slice overlay_po2 peerD 2) table_527
         = Done r table_527 ∧
       least_count table_527 (others peerD (peers_at overlay_po2 (BaseAddr overlay_po2) 2)) r.
Proof.
  apply (leastUsedCountInBin_least GoSort.Slice GoSort_Slice_perm GoSort_Slice_sorted
           overlay_po2 peerD 2 table_527).
  - reflexivity.
  - exact four_peers_addressed.
Defined.

Lemma least_used_added_peer_witness :
  ∃ r, run (addedPeer (NewKademliaLoadBalancer GoSort.Slice overlay_far false) peerD 2)
           table_527
         = Done tt (set_uses (<[Key peerD := r]> (resourceUses table_527)) table_527) ∧
       least_count table_527 (others peerD (peers_at overlay_far (BaseAddr overlay_far) 0)) r.
Proof.
  apply (least_used_added_peer GoSort.Slice GoSort_Slice_perm GoSort_Slice_sorted
           overlay_far peerD 2 table_527).
  - reflexivity.
  - apply lookup_empty.
  - discriminate.
  - exact four_peers_addressed.
Defined.

Lemma each_bin_stops_witness :
  ∃ out,
    run (EachBin GoSort.Slice (NewKademliaLoadBalancer GoSort.Slice overlay_bad_tail false)
           [x00] (collect_first 1) []) table_AB = Done out table_AB ∧
    Forall2 (projects table_AB) out (take 1 (EachBinDesc overlay_bad_tail [x00] 0)).
Proof.
  apply (each_bin_stops GoSort.Slice GoSort_Slice_perm GoSort_Slice_sorted
           (NewKademliaLoadBalancer GoSort.Slice overlay_bad_tail false) [x00] 1 table_AB).
  - lia.
  - reflexivity.
  - repeat constructor.
Defined.

Lemma each_bin_filtered_sorted_witness :
  ∃ out,
    run (EachBinFiltered GoSort.Slice (NewKademliaLoadBalancer GoSort.Slice overlay_capable false)
           [x00] "cap"%string collect []) table_AB = Done out table_AB ∧
    Forall2 (projects table_AB) out [bin_of 2 [peerA; peerB]].
Proof.
  apply (each_bin_filtered_sorted GoSort.Slice GoSort_Slice_perm GoSort_Slice_sorted
           (NewKademliaLoadBalancer GoSort.Slice overlay_capable false) [x00] "cap"%string
           [bin_of 2 [peerA; peerB]] (Some "late failure"%string) table_AB).
  - reflexivity.
  - reflexivity.
  - repeat constructor.
Defined.

Lemma overlay_near_D_addressed : addressed overlay_near_D.
Proof.
  split.
  - intros base po bin q Hbin Hq. simpl in Hbin.
    apply list_elem_of_filter in Hbin as [_ Hbin].
    apply list_elem_of_singleton in Hbin as ->. simpl in Hq.
    repeat (apply elem_of_cons in Hq as [->|Hq]; [discriminate|]).
    apply elem_of_nil in Hq. contradiction.
  - intros base po c Hc. simpl in Hc.
    repeat (apply elem_of_cons in Hc as [->|Hc]; [discriminate|]).
    apply elem_of_nil in Hc. contradiction.
Qed.

Lemma new_listener_registers_witness :
  ∃ lb',
    run (listenNewPeers (NewKademliaLoadBalancer GoSort.Slice overlay_near_D false)
           ((signal <$> [(peerD, 2)]) ++ EvQuit :: [signal (peerA, 2)])) table_529
      = Done Returned lb' ∧
    lock_free lb' ∧ waiting lb' = waiting table_529 ∧
    (∀ key, key ∈ (Key ∘ fst <$> [(peerD, 2)]) -> is_Some (resourceUses lb' !! key)) ∧
    (∀ key, key ∉ (Key ∘ fst <$> [(peerD, 2)]) ->
       resourceUses lb' !! key = resourceUses table_529 !! key).
Proof.
  apply (new_listener_registers GoSort.Slice GoSort_Slice_perm GoSort_Slice_sorted overlay_near_D false
           [(peerD, 2)] [signal (peerA, 2)] table_529).
  - exact overlay_near_D_addressed.
  - reflexivity.
  - intros key. apply lookup_empty.
  - repeat constructor. discriminate.
Defined.
(** ** The removed-peer listener *)

Lemma listenOffPeers_skips klb skips rest lb :
  Forall skipped skips ->
  run (listenOffPeers klb (skips ++ rest)) lb = run (listenOffPeers klb rest) lb.
Proof.
  induction 1 as [|ev skips Hev _ IH]; [reflexivity|].
  destruct ev as [| |[p po|[p|]|]]; try contradiction; exact IH.
Qed.

(** X13: the removed-peer listener passes over a closed channel and every
    message that is not a non-nil peer without touching the table; the quit
    signal makes it return; the first non-nil peer has its count deleted and
    then parks the listener for ever inside [removedPeer] with the write lock
    held, so that no later event, not even the quit signal, is handled. *)
Theorem off_listener_parks klb skips rest lb :
  Forall skipped skips -> lock_free lb ->
  run (listenOffPeers klb skips) lb = Done Listening lb ∧
  run (listenOffPeers klb (skips ++ EvQuit :: rest)) lb = Done Returned lb ∧
  ∀ peer,
    run (listenOffPeers klb (skips ++ EvMsg (MsgPeer (Some peer)) :: rest)) lb =
      Blocked (set_lock {| writer := true; readers := 0%nat |}
                 (set_uses (delete (Key peer) (resourceUses lb)) lb)).
Proof.
  intros Hs Hfree. split; [|split].
  - rewrite <- (app_nil_r skips), listenOffPeers_skips by exact Hs. reflexivity.
  - rewrite listenOffPeers_skips by exact Hs. reflexivity.
  - intros peer. rewrite listenOffPeers_skips by exact Hs.
    cbn [listenOffPeers]. apply run_bind_Blocked, run_removedPeer, Hfree.
Qed.

Lemma off_listener_parks_witness :
  run (listenOffPeers (NewKademliaLoadBalancer GoSort.Slice overlay_A true)
         ([EvClosed; EvMsg (MsgPeer None); EvMsg MsgOther] ++
          EvMsg (MsgPeer (Some peerA)) :: [EvQuit])) table_AB =
    Blocked (set_lock {| writer := true; readers := 0%nat |}
               (set_uses (delete (Key peerA) (resourceUses table_AB)) table_AB)).
Proof.
  refine (proj2 (proj2 (off_listener_parks _ [EvClosed; EvMsg (MsgPeer None); EvMsg MsgOther]
                          [EvQuit] table_AB _ _)) peerA).
  - repeat constructor.
  - reflexivity.
Defined.


(** ** Goroutines and the lock *)

Lemma sum_list_insert {A : Type} (f : A -> nat) (ts : list A) j t t' :
  ts !! j = Some t ->
  (sum_list (f <$> <[j := t']> ts) + f t = sum_list (f <$> ts) + f t')%nat.
Proof.
  revert j. induction ts as [|x ts IH]; intros [|j] Hj; simplify_eq/=; [lia|].
  specialize (IH j Hj). lia.
Qed.

Lemma sum_list_lookup_le {A : Type} (f : A -> nat) (ts : list A) j t :
  ts !! j = Some t -> (f t <= sum_list (f <$> ts))%nat.
Proof.
  revert j. induction ts as [|x ts IH]; intros [|j] Hj; simplify_eq/=; [lia|].
  specialize (IH j Hj). lia.
Qed.

Lemma holders_pos m ts :
  holders m ts ≠ 0%nat -> ∃ j t, ts !! j = Some t ∧ mode t = m.
Proof.
  unfold holders. induction ts as [|x ts IH]; simpl; [congruence|].
  unfold holds at 1. destruct (decide (mode x = m)) as [Hm|Hm].
  - intros _. exists 0%nat, x. split; [reflexivity|exact Hm].
  - intros H. destruct (IH H) as (j & t & Hj & Ht). exists (S j), t. split; assumption.
Qed.

(** A property of the configurations a pool of control points reaches is
    proved by showing it of the start and of every step a goroutine takes
    from its control point. *)
Lemma pool_nsteps_from (P : nat -> resourceUseStats -> list tstate -> Prop) :
  (∀ n lb ts j t t' lb',
     pool_inv lb ts -> P n lb ts -> ts !! j = Some t -> tstep t lb = Some (t', lb') ->
     P (S n) lb' (<[j := t']> ts)) ->
  ∀ n c0 c, nsteps step n c0 c ->
    ∀ m, (∃ ts, c0.2 = prog_of <$> ts ∧ pool_inv c0.1 ts ∧ P m c0.1 ts) ->
         ∃ ts, c.2 = prog_of <$> ts ∧ pool_inv c.1 ts ∧ P (m + n)%nat c.1 ts.
Proof.
  intros Hstep. induction 1 as [x|n x y z Hxy _ IH]; intros m (ts & Hp & Hinv & HP).
  - rewrite Nat.add_0_r. eauto.
  - replace (m + S n)%nat with (S m + n)%nat by lia. apply IH.
    destruct x as [lb pool]. simpl in *. subst pool.
    destruct (pool_step_inv _ _ _ Hinv Hxy) as (j & t & t' & Hj & Ht & Hpool).
    exists (<[j := t']> ts). split; [exact Hpool|]. split.
    + eapply pool_inv_local; eauto.
    + eapply Hstep; eauto.
Qed.

Lemma pool_nsteps_ind (P : nat -> resourceUseStats -> list tstate -> Prop) calls :
  P 0%nat newResourceLoadBalancer (init_state <$> calls) ->
  (∀ n lb ts j t t' lb',
     pool_inv lb ts -> P n lb ts -> ts !! j = Some t -> tstep t lb = Some (t', lb') ->
     P (S n) lb' (<[j := t']> ts)) ->
  ∀ n c, nsteps step n (newResourceLoadBalancer, call_prog <$> calls) c ->
    ∃ ts, c.2 = prog_of <$> ts ∧ pool_inv c.1 ts ∧ P n c.1 ts.
Proof.
  intros Hinit Hstep n c Hn.
  apply (pool_nsteps_from P Hstep _ _ _ Hn 0%nat). exists (init_state <$> calls).
  split; [|split; [apply pool_inv_init|exact Hinit]].
  simpl. rewrite <- list_fmap_compose. apply list_fmap_ext. intros _ x _. simpl.
  symmetry. apply prog_of_init.
Qed.

Lemma pool_rtc_ind (P : resourceUseStats -> list tstate -> Prop) calls :
  P newResourceLoadBalancer (init_state <$> calls) ->
  (∀ lb ts j t t' lb',
     pool_inv lb ts -> P lb ts -> ts !! j = Some t -> tstep t lb = Some (t', lb') ->
     P lb' (<[j := t']> ts)) ->
  ∀ c, rtc step (newResourceLoadBalancer, call_prog <$> calls) c ->
    ∃ ts, c.2 = prog_of <$> ts ∧ pool_inv c.1 ts ∧ P c.1 ts.
Proof.
  intros Hinit Hstep c Hc. apply rtc_nsteps in Hc as (n & Hn).
  apply (pool_nsteps_ind (fun _ => P) calls Hinit (fun _ => Hstep) n c Hn).
Qed.

Lemma holders_init m calls : m ≠ NoLock -> holders m (init_state <$> calls) = 0%nat.
Proof.
  intros Hm. unfold holders. induction calls as [|c calls IH]; [reflexivity|].
  cbn [fmap list_fmap sum_list]. rewrite IH. unfold holds.
  destruct c; simpl; rewrite decide_False by congruence; reflexivity.
Qed.

Lemma tstep_lock t lb t' lb' :
  tstep t lb = Some (t', lb') ->
  (mode t = WriteMode -> writer (lock lb) = true) ->
  (writer (lock lb) = true -> readers (lock lb) = 0%nat) ->
  (readers (lock lb') + holds ReadMode t = readers (lock lb) + holds ReadMode t')%nat ∧
  ((if writer (lock lb') then 1 else 0) + holds WriteMode t =
   (if writer (lock lb) then 1 else 0) + holds WriteMode t')%nat ∧
  (writer (lock lb') = true -> readers (lock lb') = 0%nat).
Proof.
  intros H Hlocked Hexcl. unfold holds.
  step_cases t H; simpl in *;
    try (specialize (Hlocked eq_refl)); try (specialize (Hexcl eq_refl));
    try discriminate.
  all: try (destruct r as [p|]; [destruct (key_prefix_ok (Key p))|]).
  all: try destruct (resourceUses lb !! key).
  all: try destruct (waiting lb !! key).
  all: simpl; repeat split; first [assumption | lia | congruence].
Qed.

Lemma lock_accounted_step lb ts j t t' lb' :
  pool_inv lb ts -> lock_accounted lb ts -> ts !! j = Some t ->
  tstep t lb = Some (t', lb') -> lock_accounted lb' (<[j := t']> ts).
Proof.
  intros Hinv (Hr & Hw & Hx) Hj Ht.
  destruct (tstep_lock _ _ _ _ Ht (inv_locked _ _ Hinv j t Hj) Hx) as (Hr' & Hw' & Hx').
  pose proof (sum_list_insert (holds ReadMode) ts j t t' Hj) as Hsr.
  pose proof (sum_list_insert (holds WriteMode) ts j t t' Hj) as Hsw.
  unfold lock_accounted, holders in *. split; [lia|]. split; [lia|exact Hx'].
Qed.

Lemma lock_accounted_init calls :
  lock_accounted newResourceLoadBalancer (init_state <$> calls).
Proof.
  unfold lock_accounted. rewrite !holders_init by discriminate.
  repeat split; simpl; congruence.
Qed.

(** X14: in every configuration that goroutines making calls of
    [getKeyUses], [addUse], [initKey], [waitKey] and [removedPeer] reach from
    a fresh table, the lock records exactly who is inside: the readers it
    counts are the goroutines between [RLock] and [RUnlock], it is
    write-locked exactly when one goroutine is between [Lock] and [Unlock],
    there is never a second such goroutine and never a reader beside it. *)
Theorem lock_excludes calls c :
  rtc step (newResourceLoadBalancer, call_prog <$> calls) c ->
  ∃ ts, c.2 = prog_of <$> ts ∧
        readers (lock c.1) = holders ReadMode ts ∧
        holders WriteMode ts = (if writer (lock c.1) then 1%nat else 0%nat) ∧
        (holders WriteMode ts ≠ 0%nat -> holders ReadMode ts = 0%nat).
Proof.
  intros H.
  destruct (pool_rtc_ind lock_accounted calls (lock_accounted_init calls)
              lock_accounted_step c H) as (ts & Hp & _ & Hr & Hw & Hx).
  exists ts. split; [exact Hp|]. split; [exact Hr|]. split; [symmetry; exact Hw|].
  intros Hne. rewrite <- Hr. apply Hx. destruct (writer (lock c.1)); [reflexivity|].
  congruence.
Qed.

Lemma quiet_state_step t lb t' lb' :
  tstep t lb = Some (t', lb') -> quiet_state t ->
  (mode t = WriteMode -> ∀ key, waiting lb !! key = None) ->
  quiet_state t' ∧ (steps_left t' < steps_left t)%nat.
Proof.
  intros H Hq Hwait.
  step_cases t H; simpl in *; try contradiction; try (split; [exact I|lia]).
  - destruct r as [p|]; [destruct (key_prefix_ok (Key p))|]; simpl; split; (exact I || lia).
  - rewrite (Hwait eq_refl). simpl. split; [exact I|lia].
Qed.

Lemma quiet_enabled t lb :
  quiet_state t -> ended t = false ->
  (mode t = WriteMode -> writer (lock lb) = true) ->
  (mode t = ReadMode -> readers (lock lb) ≠ 0%nat) ->
  (mode t = NoLock -> writer (lock lb) = false ∧ readers (lock lb) = 0%nat) ->
  is_Some (tstep t lb).
Proof.
  intros Hq He Hw Hr Hn.
  destruct t; simpl in *; try contradiction; try discriminate; unfold on; simpl;
    try (destruct (Hn eq_refl) as [-> ->]); try (rewrite (Hw eq_refl)); eauto.
  destruct (readers (lock lb)); [destruct (Hr eq_refl eq_refl)|eauto].
Qed.

Lemma pool_can_step lb ts j t :
  ts !! j = Some t -> is_Some (tstep t lb) -> ∃ c', step (lb, prog_of <$> ts) c'.
Proof.
  intros Hj [[t' lb'] Ht]. eexists. eapply (step_local _ _ j).
  - rewrite list_lookup_fmap, Hj. reflexivity.
  - rewrite thread_step_prog_of, Ht. reflexivity.
Qed.

Lemma quiet_pool_moves lb ts :
  pool_inv lb ts -> lock_accounted lb ts -> Forall quiet_state ts ->
  (∃ c', step (lb, prog_of <$> ts) c') ∨
  Forall (fun p => p = Ret tt ∨ p = Panic) (prog_of <$> ts).
Proof.
  intros Hinv (Hr & Hw & Hx) Hq.
  destruct (writer (lock lb)) eqn:Hwr.
  { left. destruct (holders_pos WriteMode ts) as (j & t & Hj & Hm); [lia|].
    apply (pool_can_step lb ts j t Hj). rewrite Forall_lookup in Hq.
    apply quiet_enabled; try congruence; [eapply Hq; eauto|].
    destruct t; simpl in *; try discriminate; reflexivity. }
  destruct (readers (lock lb)) as [|n] eqn:Hrd.
  2: { left. destruct (holders_pos ReadMode ts) as (j & t & Hj & Hm); [lia|].
       apply (pool_can_step lb ts j t Hj). rewrite Forall_lookup in Hq.
       apply quiet_enabled; try congruence; [eapply Hq; eauto|].
       destruct t; simpl in *; try discriminate; reflexivity. }
  destruct (Forall_Exists_dec (fun t => ended t = true) (fun t => ended t ≠ true)
              (fun t => decide (ended t = true)) ts) as [Hall|Hsome].
  - right. rewrite Forall_fmap. eapply Forall_impl; [exact Hall|].
    intros t Ht. destruct t; try discriminate; simpl; auto.
  - left. apply Exists_exists in Hsome as (t & Hin & Ht).
    apply list_elem_of_lookup in Hin as (j & Hj).
    apply (pool_can_step lb ts j t Hj). rewrite Forall_lookup in Hq.
    assert (Hmode : mode t = NoLock).
    { destruct (mode t) eqn:Hm; [reflexivity| |].
      - pose proof (sum_list_lookup_le (holds ReadMode) ts j t Hj) as Hle.
        unfold holds in Hle at 1. rewrite decide_True in Hle by exact Hm.
        unfold holders in Hr. lia.
      - pose proof (inv_locked _ _ Hinv j t Hj Hm). congruence. }
    apply quiet_enabled; try congruence; [eapply Hq; eauto| |auto].
    destruct (ended t); congruence.
Qed.

(** X15: goroutines that call only [getKeyUses], [addUse] and [initKey]
    on a fresh table never get stuck: a run of theirs takes at most five
    steps for each call, and from every configuration it reaches some
    goroutine can take a step unless every call has returned or panicked. *)
Theorem quiet_pool_terminates calls n c :
  Forall quiet calls ->
  nsteps step n (newResourceLoadBalancer, call_prog <$> calls) c ->
  (n <= 5 * length calls)%nat ∧
  ((∃ c', step c c') ∨ Forall (fun p => p = Ret tt ∨ p = Panic) c.2).
Proof.
  intros Hquiet Hn.
  destruct (pool_nsteps_ind
              (fun n lb ts => lock_accounted lb ts ∧ Forall quiet_state ts ∧
                              (n + sum_list (steps_left <$> ts) <= 5 * length ts)%nat)
              calls) with (n := n) (c := c) as (ts & Hp & Hinv & Hacc & Hq & Hbound).
  - split; [apply lock_accounted_init|]. split.
    + rewrite Forall_fmap. eapply Forall_impl; [exact Hquiet|].
      intros call Hc. destruct call; try contradiction; exact I.
    + clear -Hquiet. induction Hquiet as [|call calls Hc _ IH]; [simpl; lia|].
      assert (steps_left (init_state call) <= 5)%nat
        by (destruct call; simpl; try contradiction; lia).
      rewrite length_fmap in IH. rewrite fmap_cons, length_cons, length_fmap.
      rewrite fmap_cons. cbn [sum_list]. unfold id in *. lia.
  - intros m lb ts j t t' lb' Hinv (Hacc & Hq & Hbound) Hj Ht.
    destruct (quiet_state_step _ _ _ _ Ht) as [Hq' Hless].
    { rewrite Forall_lookup in Hq. eapply Hq; eauto. }
    { intros Hm key. eapply no_waiter_view; [eapply (inv_view _ _ Hinv); eauto|].
      rewrite Forall_lookup in Hq. specialize (Hq _ _ Hj).
      destruct t; simpl in *; try contradiction; try discriminate; reflexivity. }
    split; [eapply lock_accounted_step; eauto|]. split.
    + apply Forall_insert; assumption.
    + pose proof (sum_list_insert steps_left ts j t t' Hj). rewrite length_insert. lia.
  - exact Hn.
  - split.
    + assert (length ts = length calls) as <-; [|lia].
      apply rtc_nsteps_2 in Hn. clear -Hn Hp.
      assert (Hlen : ∀ c0 c, rtc step c0 c -> length c.2 = length c0.2).
      { clear. induction 1 as [|x y z Hxy _ IH]; [reflexivity|]. rewrite IH.
        inversion Hxy; subst; simpl; rewrite ?length_insert; reflexivity. }
      apply Hlen in Hn. rewrite Hp in Hn. simpl in Hn. rewrite !length_fmap in Hn. exact Hn.
    + destruct c as [lb pool]. simpl in *. subst pool.
      apply quiet_pool_moves; assumption.
Qed.

(** ** No use is lost *)

Lemma credits_insert key calls ts j c t t' :
  calls !! j = Some c -> ts !! j = Some t ->
  (credits key calls (<[j := t']> ts) + credit key c t =
   credits key calls ts + credit key c t')%nat.
Proof.
  revert ts j. induction calls as [|c0 calls IH]; intros [|t0 ts] [|j] Hc Ht;
    simplify_eq/=; [lia|].
  specialize (IH ts j Hc Ht). lia.
Qed.

Lemma add_on_le key c : (add_on key c <= 1)%nat.
Proof. destruct c as [|[p|]| | |]; simpl; try lia. destruct (decide (Key p = key)); lia. Qed.

Lemma credits_le key calls ts : (credits key calls ts <= length calls)%nat.
Proof.
  revert ts. induction calls as [|c calls IH]; intros [|t ts]; simpl; try lia.
  specialize (IH ts). pose proof (add_on_le key c). destruct t; simpl; lia.
Qed.

Lemma credits_init key calls : credits key calls (init_state <$> calls) = 0%nat.
Proof.
  induction calls as [|c calls IH]; [reflexivity|].
  cbn [fmap list_fmap credits]. rewrite IH. destruct c; reflexivity.
Qed.

Lemma credits_ended key calls ts :
  Forall2 follows calls ts -> Forall (fun t => finished (prog_of t) = true) ts ->
  credits key calls ts = adds_on key calls.
Proof.
  unfold adds_on. induction 1 as [|c t calls ts Hf _ IH]; intros Hall; [reflexivity|].
  apply Forall_cons in Hall as [Ht Hall]. cbn [credits fmap list_fmap sum_list].
  rewrite (IH Hall). f_equal. destruct t; simpl in Ht; try discriminate; reflexivity.
Qed.

(** What one step of a counting call does to the counts. *)
Lemma counting_step c t lb t' lb' :
  follows c t -> tstep t lb = Some (t', lb') ->
  follows c t' ∧
  (∀ p v, t' = TA2 p v -> (∃ p0 v0, t = TA2 p0 v0) ∨ v = resourceUses lb' !! Key p) ∧
  match t with
  | TA2 p v =>
      resourceUses lb' = <[Key p := int_add (default 0 v) 1]> (resourceUses lb) ∧
      ∀ key, (credit key c t' = credit key c t + add_on key c)%nat
  | _ => resourceUses lb' = resourceUses lb ∧ ∀ key, credit key c t' = credit key c t
  end.
Proof.
  intros Hf H.
  destruct c as [key0|[p0|]|key0 count0|key0|peer0];
    step_cases t H; simpl in *; try contradiction; subst;
    try destruct (key_prefix_ok (Key p0));
    repeat split; try reflexivity; try discriminate; try (intros; discriminate).
  all: first [assumption | intros p1 v1 Heq; injection Heq as <- <-; right; reflexivity].
Qed.

Lemma counting_pool calls c :
  Forall counting calls -> (Z.of_nat (length calls) <= int_max) ->
  rtc step (newResourceLoadBalancer, call_prog <$> calls) c ->
  ∃ ts, c.2 = prog_of <$> ts ∧ Forall2 follows calls ts ∧
        ∀ key, uses_of c.1 key = Z.of_nat (credits key calls ts).
Proof.
  intros Hcount Hbound Hc.
  destruct (pool_rtc_ind
              (fun lb ts => Forall2 follows calls ts ∧
                            (∀ key, uses_of lb key = Z.of_nat (credits key calls ts)) ∧
                            ∀ i p v, ts !! i = Some (TA2 p v) -> v = resourceUses lb !! Key p)
              calls) with (c := c) as (ts & Hp & _ & Hf & Hu & _); [| |exact Hc|eauto].
  - split; [|split].
    + apply Forall2_fmap_r, Forall_Forall2_diag. eapply Forall_impl; [exact Hcount|].
      intros call Hcall. destruct call as [?|[?|]|? ?|?|?]; try contradiction; reflexivity.
    + intros key. rewrite credits_init. reflexivity.
    + intros i p v Hi. apply list_lookup_fmap_Some in Hi as (call & Heq & _).
      destruct call; discriminate.
  - clear c Hc. intros lb ts j t t' lb' Hinv (Hf & Hu & Hread) Hj Ht.
    destruct (Forall2_lookup_r _ _ _ _ _ Hf Hj) as (call & Hcall & Hfollow).
    destruct (counting_step call t lb t' lb' Hfollow Ht) as (Hfollow' & Hnew & Heffect).
    pose proof (credits_insert) as Hins.
    assert (Huses : (∀ p v, t = TA2 p v -> False) -> resourceUses lb' = resourceUses lb).
    { intros Hno. destruct t; try apply Heffect. destruct (Hno _ _ eq_refl). }
    split; [|split].
    + rewrite <- (list_insert_id calls j call Hcall). apply Forall2_insert; assumption.
    + intros key. pose proof (Hins key calls ts j call t t' Hcall Hj) as Hsum.
      pose proof (credits_le key calls (<[j := t']> ts)) as Hle.
      specialize (Hu key). unfold uses_of in *.
      destruct t; try (destruct Heffect as [-> Hcr]; rewrite Hcr in Hsum; lia).
      destruct Heffect as [-> Hcr]. rewrite Hcr in Hsum.
      destruct call as [?|[q|]|? ?|?|?]; simpl in Hfollow; try contradiction;
        try discriminate.
      injection Hfollow as ->. simpl in Hsum.
      rewrite (Hread _ _ _ Hj).
      destruct (decide (Key p = key)) as [->|Hne].
      * rewrite lookup_insert_eq. simpl. unfold int_add. rewrite Hu.
        rewrite wrap_int_id; [lia|]. unfold int_min, int_max in *. lia.
      * rewrite lookup_insert_ne by exact Hne. lia.
    + intros i p v Hi. apply list_lookup_insert_Some in Hi as [(-> & -> & _)|[Hne Hi]].
      * destruct (Hnew _ _ eq_refl) as [(p0 & v0 & ->)|Hv]; [|exact Hv].
        simpl in Ht. unfold on in Ht. simpl in Ht. discriminate.
      * rewrite Huses; [eapply Hread; eauto|].
        intros p0 v0 ->. apply Hne.
        eapply (inv_exclusive _ _ Hinv); eauto.
Qed.

(** X16: when goroutines that call only [getKeyUses] and [addUse] on a
    fresh table have all returned, whatever the interleaving of their steps
    was, the count of every key is the number of [addUse] calls made on it
    (as long as there are no more calls than the largest int): no use is
    lost. *)
Theorem no_use_lost calls c :
  Forall counting calls -> Z.of_nat (length calls) <= int_max ->
  rtc step (newResourceLoadBalancer, call_prog <$> calls) c ->
  Forall (fun p => finished p = true) c.2 ->
  ∀ key, uses_of c.1 key = Z.of_nat (adds_on key calls).
Proof.
  intros Hcount Hbound Hc Hfin key.
  destruct (counting_pool calls c Hcount Hbound Hc) as (ts & Hp & Hf & Hu).
  rewrite Hu. f_equal. apply credits_ended; [exact Hf|].
  rewrite Hp, Forall_fmap in Hfin. exact Hfin.
Qed.

(** A run of two uses of A, the second goroutine first. *)
Lemma two_adds_run :
  nsteps step 10
    (newResourceLoadBalancer, call_prog <$> [CallAdd (Some peerA); CallAdd (Some peerA)])
    ({| resourceUses := {[ Key peerA := 2 ]}; waiting := ∅;
        lock := {| writer := false; readers := 0%nat |}; next_chan := 0%nat |},
     [Ret tt; Ret tt]).
Proof.
  eapply nsteps_l. { eapply (step_local _ _ 1%nat); [reflexivity | reflexivity]. }
  eapply nsteps_l. { eapply (step_local _ _ 1%nat); [reflexivity | reflexivity]. }
  eapply nsteps_l. { eapply (step_local _ _ 1%nat); [reflexivity | reflexivity]. }
  eapply nsteps_l. { eapply (step_local _ _ 1%nat); [reflexivity | reflexivity]. }
  eapply nsteps_l. { eapply (step_local _ _ 1%nat); [reflexivity | reflexivity]. }
  eapply nsteps_l. { eapply (step_local _ _ 0%nat); [reflexivity | reflexivity]. }
  eapply nsteps_l. { eapply (step_local _ _ 0%nat); [reflexivity | reflexivity]. }
  eapply nsteps_l. { eapply (step_local _ _ 0%nat); [reflexivity | reflexivity]. }
  eapply nsteps_l. { eapply (step_local _ _ 0%nat); [reflexivity | reflexivity]. }
  eapply nsteps_l. { eapply (step_local _ _ 0%nat); [reflexivity | reflexivity]. }
  simpl. unfold set_uses, set_lock; simpl.
  rewrite lookup_empty. simpl. rewrite !lookup_insert_eq. simpl.
  rewrite insert_insert_eq. apply nsteps_O.
Defined.

Lemma lock_excludes_witness :
  ∃ ts,
    [ do! act (ARecv (Some 0%nat)) in do! act (ADeleteWaiting "k"%string) in act AUnlock;
      initKey "k"%string 3 ] = prog_of <$> ts ∧
    0%nat = holders ReadMode ts ∧
    holders WriteMode ts = 1%nat ∧
    (holders WriteMode ts ≠ 0%nat -> holders ReadMode ts = 0%nat).
Proof.
  exact (lock_excludes [CallWait "k"%string; CallInit "k"%string 3] _
           (wait_first_reaches "k"%string 3)).
Defined.

Lemma quiet_pool_terminates_witness :
  (10 <= 5 * 2)%nat ∧
  ((∃ c', step ({| resourceUses := {[ Key peerA := 2 ]}; waiting := ∅;
                   lock := {| writer := false; readers := 0%nat |}; next_chan := 0%nat |},
                [Ret tt; Ret tt]) c') ∨
   Forall (fun p => p = Ret tt ∨ p = Panic) [Ret tt; Ret tt]).
Proof.
  refine (quiet_pool_terminates [CallAdd (Some peerA); CallAdd (Some peerA)] 10 _ _
            two_adds_run).
  repeat constructor.
Defined.

Lemma no_use_lost_witness :
  uses_of {| resourceUses := {[ Key peerA := 2 ]}; waiting := ∅;
             lock := {| writer := false; readers := 0%nat |}; next_chan := 0%nat |}
          (Key peerA)
  = Z.of_nat (adds_on (Key peerA) [CallAdd (Some peerA); CallAdd (Some peerA)]).
Proof.
  refine (no_use_lost [CallAdd (Some peerA); CallAdd (Some peerA)] _ _ _
            (rtc_nsteps_2 _ _ _ two_adds_run) _ (Key peerA)).
  - repeat constructor.
  - unfold int_max. simpl. lia.
  - repeat constructor.
Defined.

(** ** The signal of [initKey] *)

Lemma at_send_control t : is_Some (at_send (prog_of t)) -> ∃ c, t = TI3 c.
Proof. destruct t; simpl; intros [x H]; try discriminate; eauto. Qed.

Lemma at_recv_blocked t lb : is_Some (at_recv (prog_of t)) -> tstep t lb = None.
Proof. destruct t; simpl; intros [x H]; try discriminate. reflexivity. Qed.

Lemma no_sender_step lb ts j t t' lb' :
  pool_inv lb ts -> Forall (fun t => at_send (prog_of t) = None) ts ->
  ts !! j = Some t -> tstep t lb = Some (t', lb') ->
  Forall (fun t => at_send (prog_of t) = None) (<[j := t']> ts).
Proof.
  intros Hinv Hall Hj Ht. apply Forall_insert; [exact Hall|].
  destruct (at_send (prog_of t')) as [x|] eqn:Hs; [|reflexivity].
  destruct (at_send_control t' (mk_is_Some _ _ Hs)) as (c & ->).
  destruct t; simpl in Ht; unfold on in Ht; simpl in Ht;
    repeat match type of Ht with
      | context [writer ?l] => destruct (writer l) eqn:?
      | context [readers ?l] => destruct (readers l) eqn:?
      end; try discriminate.
  all: exfalso.
  - destruct r as [p|]; [destruct (key_prefix_ok (Key p))|]; discriminate.
  - pose proof (no_waiter_view _ _ key (inv_view _ _ Hinv j _ Hj eq_refl) eq_refl) as Hnone.
    rewrite Hnone in Ht. discriminate.
  - destruct (resourceUses lb !! key); discriminate.
Qed.

(** X17: from a fresh table, whatever calls of [getKeyUses], [addUse],
    [initKey], [waitKey] and [removedPeer] the goroutines make and however
    their steps interleave, [initKey] never finds a waiter, so no goroutine
    is ever at the send [kChan <- true]; and a goroutine parked at the
    receive of [waitKey] stays parked there for ever. *)
Theorem signal_never_sent calls c :
  rtc step (newResourceLoadBalancer, call_prog <$> calls) c ->
  Forall (fun p => at_send p = None) c.2 ∧
  ∀ i p c', c.2 !! i = Some p -> is_Some (at_recv p) -> rtc step c c' -> c'.2 !! i = Some p.
Proof.
  intros Hc.
  destruct (pool_rtc_ind (fun _ ts => Forall (fun t => at_send (prog_of t) = None) ts) calls)
    with (c := c) as (ts & Hp & Hinv & Hnone); [| |exact Hc|].
  - rewrite Forall_fmap. apply Forall_forall. intros call _. destruct call; reflexivity.
  - intros lb ts j t t' lb'. apply no_sender_step.
  - split; [rewrite Hp, Forall_fmap; exact Hnone|].
    intros i p c' Hi Hrecv Hc'. rewrite Hp in Hi.
    apply list_lookup_fmap_Some in Hi as (ti & -> & Hi).
    apply rtc_nsteps in Hc' as (n & Hn).
    destruct (pool_nsteps_from (fun _ _ ts' => ts' !! i = Some ti)) with (n := n) (c0 := c)
      (c := c') (m := 0%nat) as (ts' & Hp' & _ & Hi'); [|exact Hn|eauto|].
    + intros _ lb ts0 j t t' lb' _ Hi0 Hj Ht.
      destruct (decide (j = i)) as [->|Hne].
      * rewrite Hi0 in Hj. injection Hj as <-.
        rewrite (at_recv_blocked ti lb Hrecv) in Ht. discriminate.
      * rewrite list_lookup_insert_ne by exact Hne. exact Hi0.
    + rewrite Hp', list_lookup_fmap, Hi'. reflexivity.
Qed.

Lemma signal_never_sent_witness :
  Forall (fun p => at_send p = None)
    [ do! act (ARecv (Some 0%nat)) in do! act (ADeleteWaiting "k"%string) in act AUnlock;
      initKey "k"%string 3 ].
Proof.
  exact (proj1 (signal_never_sent [CallWait "k"%string; CallInit "k"%string 3] _
                  (wait_first_reaches "k"%string 3))).
Defined.

(** ** Registration under a held lock *)

Lemma run_mostSimilar_loop_locked lb newPeer conns count :
  writer (lock lb) = true ->
  run (mostSimilar_loop conns newPeer count) lb = Blocked lb ∨
  run (mostSimilar_loop conns newPeer count) lb = Done count lb.
Proof.
  intros Hw. induction conns as [|[peer po] conns IH]; [right; reflexivity|].
  cbn [mostSimilar_loop]. destruct (negb (ptr peer =? ptr newPeer)%nat); [|exact IH].
  left. apply run_bind_Blocked. apply run_getKeyUses_locked, Hw.
Qed.

Section BlockedRegistration.

Variable sort_Slice :
  (ResourceCount -> ResourceCount -> bool) -> list ResourceCount -> list ResourceCount.

Hypothesis sort_Slice_perm : ∀ l, sort_Slice less_count l ≡ₚ l.

Lemma run_leastUsedCountInBin_locked kad (peer : Peer) po lb :
  writer (lock lb) = true ->
  run (leastUsedCountInBin sort_Slice kad peer po) lb = Blocked lb ∨
  run (leastUsedCountInBin sort_Slice kad peer po) lb = Done 0 lb.
Proof.
  intros Hw. unfold leastUsedCountInBin, getPeersForPo. cbn zeta.
  rewrite run_bind. erewrite run_bind_Done by apply each_gather. cbn [app].
  destruct (peers_at kad (BaseAddr kad) po) as [|p ps] eqn:Hps; fold (peers_at kad (BaseAddr kad) po);
    rewrite Hps.
  - right. unfold resourcesToLbPeers, sortResources. simpl.
    rewrite (proj1 (Permutation_nil_r _) (sort_Slice_perm [])). reflexivity.
  - left. unfold resourcesToLbPeers, sortResources.
    cbn [fmap list_fmap getAllUses getUses].
    erewrite run_bind_Blocked; [reflexivity|].
    apply run_bind_Blocked, run_bind_Blocked.
    apply run_getKeyUses_locked, Hw.
Qed.

(** X18: while the write lock of the table is held (as it is for ever once
    [removedPeer] has run), the added-peer listener cannot register a peer:
    under either strategy it blocks at the first signal, before any count is
    written, and handles no later event. *)
Theorem registration_blocks kad (useMostSimilarInit : bool) (s : Peer * Z) rest lb :
  writer (lock lb) = true -> Address s.1 ≠ [] ->
  run (listenNewPeers (NewKademliaLoadBalancer sort_Slice kad useMostSimilarInit)
         (signal s :: rest)) lb = Blocked lb.
Proof.
  intros Hw Hpeer. cbn [signal listenNewPeers]. apply run_bind_Blocked.
  unfold addedPeer. rewrite run_bind, (key_prefix_ok_nonempty _ Hpeer).
  assert (Hpolicy :
    run (initCountFunc (NewKademliaLoadBalancer sort_Slice kad useMostSimilarInit) s.1 0) lb
      = Blocked lb ∨
    ∃ r, run (initCountFunc (NewKademliaLoadBalancer sort_Slice kad useMostSimilarInit) s.1 0) lb
      = Done r lb).
  { destruct useMostSimilarInit; cbn [NewKademliaLoadBalancer initCountFunc].
    - unfold mostSimilarPeerCount.
      destruct (run_mostSimilar_loop_locked lb s.1 (EachConn kad (Address s.1) 255) 0 Hw);
        eauto.
    - destruct (run_leastUsedCountInBin_locked kad s.1 0 lb Hw); eauto. }
  destruct Hpolicy as [->|(r & ->)]; [reflexivity|].
  apply run_initKey_locked, Hw.
Qed.

End BlockedRegistration.

Lemma registration_blocks_witness :
  run (listenNewPeers (NewKademliaLoadBalancer GoSort.Slice overlay_A false)
         (signal (peerA, 2) :: [EvQuit])) table_stuck = Blocked table_stuck.
Proof.
  refine (registration_blocks GoSort.Slice GoSort_Slice_perm overlay_A false (peerA, 2)
            [EvQuit] table_stuck _ _).
  - reflexivity.
  - discriminate.
Defined.

(** ** The debug label of a peer *)

(** X19: [peerToBinaryId] panics on a peer with an empty address and
    otherwise yields eight binary digits which [stringBinaryToHex] turns back
    into a key that starts as the key of the peer does: its first four
    characters, those the log lines print, are the same. *)
Theorem peerToBinaryId_labels (peer : Peer) :
  match peerToBinaryId peer with
  | None => Address peer = []
  | Some id =>
      String.length id = 8%nat ∧
      substring 0 4 (stringBinaryToHex id) = substring 0 4 (Key peer)
  end.
Proof.
  unfold peerToBinaryId, Key. destruct (Address peer) as [|b rest]; [reflexivity|].
  destruct rest; destruct b; split; reflexivity.
Qed.
